(** * A shallow embedding of ab3gy-adif ([adif.py], [adif_iter.py])

    Text is modelled as Rocq [string]s, i.e. sequences of ASCII
    characters: the Python code handles decoded [str] values and on
    ASCII text every [str] operation it uses ([strip], [upper], slicing,
    [len], the regular expressions) is the byte-wise operation defined
    below.  A Python [dict] is an association list in insertion order. *)

From Stdlib Require Import String Ascii ZArith List Bool Lia.
From Stdlib Require Import DecimalString DecimalNat Permutation Sorting.Sorted QArith.
Close Scope Q_scope.
Import ListNotations.

Open Scope string_scope.

(* ------------------------------------------------------------------ *)
(** ** Python [str] primitives on ASCII text *)

Definition char_code (c : ascii) : nat := nat_of_ascii c.

(** [\w] on ASCII: letters, digits and underscore. *)
Definition is_word (c : ascii) : bool :=
  let n := char_code c in
  ((Nat.leb 65 n) && (Nat.leb n 90)) || ((Nat.leb 97 n) && (Nat.leb n 122))
  || ((Nat.leb 48 n) && (Nat.leb n 57)) || (Nat.eqb n 95).

(** [\d] on ASCII. *)
Definition is_digit (c : ascii) : bool :=
  let n := char_code c in (Nat.leb 48 n) && (Nat.leb n 57).

(** [str.isspace] on ASCII: \t \n \v \f \r, the separators \x1c-\x1f
    and the space. *)
Definition is_space (c : ascii) : bool :=
  let n := char_code c in
  ((Nat.leb 9 n) && (Nat.leb n 13)) || ((Nat.leb 28 n) && (Nat.leb n 32)).

(** [str.upper] on one ASCII character. *)
Definition upper_char (c : ascii) : ascii :=
  let n := char_code c in
  if (Nat.leb 97 n) && (Nat.leb n 122) then ascii_of_nat (n - 32) else c.

Fixpoint upper (s : string) : string :=
  match s with
  | EmptyString => EmptyString
  | String c s' => String (upper_char c) (upper s')
  end.

Fixpoint lstrip (s : string) : string :=
  match s with
  | EmptyString => EmptyString
  | String c s' => if is_space c then lstrip s' else s
  end.

Fixpoint rstrip (s : string) : string :=
  match s with
  | EmptyString => EmptyString
  | String c s' =>
      match rstrip s' with
      | EmptyString => if is_space c then EmptyString else String c EmptyString
      | r => String c r
      end
  end.

(** [str.strip()] *)
Definition strip (s : string) : string := rstrip (lstrip s).

(** [s[n:]] *)
Fixpoint drop (n : nat) (s : string) : string :=
  match n, s with
  | O, _ => s
  | S _, EmptyString => EmptyString
  | S n', String _ s' => drop n' s'
  end.

(** [s[a:b]] for [0 <= a <= b] *)
Definition slice (a b : nat) (s : string) : string := substring a (b - a) s.

(** [str.replace] of one character by another. *)
Fixpoint replace_char (old new : ascii) (s : string) : string :=
  match s with
  | EmptyString => EmptyString
  | String c s' =>
      String (if Ascii.eqb c old then new else c) (replace_char old new s')
  end.

Fixpoint prefix_of (p s : string) : bool :=
  match p, s with
  | EmptyString, _ => true
  | String _ _, EmptyString => false
  | String a p', String b s' => Ascii.eqb a b && prefix_of p' s'
  end.

(** [str.startswith] *)
Definition startswith (s p : string) : bool := prefix_of p s.

(** [str(n)] for a natural number. *)
Definition str_of_nat (n : nat) : string :=
  NilEmpty.string_of_uint (Nat.to_uint n).

(** Decimal value of a string of ASCII digits. *)
Fixpoint digits_value_acc (acc : Z) (s : string) : Z :=
  match s with
  | EmptyString => acc
  | String c s' =>
      digits_value_acc (10 * acc + Z.of_nat (char_code c - 48)) s'
  end.

Definition digits_value (s : string) : Z := digits_value_acc 0 s.

(** The body accepted by [int()] in base 10 after stripping and the
    sign: digits, with single underscores allowed between digits. *)
Fixpoint int_body_ok (after_digit : bool) (s : string) : bool :=
  match s with
  | EmptyString => after_digit
  | String c s' =>
      if is_digit c then int_body_ok true s'
      else if Ascii.eqb c "_"%char then
        after_digit && match s' with
                       | String d _ => is_digit d
                       | EmptyString => false
                       end && int_body_ok false s'
      else false
  end.

Fixpoint remove_underscores (s : string) : string :=
  match s with
  | EmptyString => EmptyString
  | String c s' =>
      if Ascii.eqb c "_"%char then remove_underscores s'
      else String c (remove_underscores s')
  end.

Definition int_body (s : string) : option Z :=
  if int_body_ok false s then Some (digits_value (remove_underscores s))
  else None.

(** [int(s)] on a [str]; [None] is the [ValueError] it raises. *)
Definition py_int (s : string) : option Z :=
  match strip s with
  | String c s' =>
      if Ascii.eqb c "-"%char then option_map Z.opp (int_body s')
      else if Ascii.eqb c "+"%char then int_body s'
      else int_body (String c s')
  | EmptyString => None
  end.

(* ------------------------------------------------------------------ *)
(** ** Python [dict] from [str] to [str] *)

Definition dict := list (string * string).

Fixpoint dict_get (d : dict) (k : string) : option string :=
  match d with
  | [] => None
  | (k', v) :: d' => if String.eqb k k' then Some v else dict_get d' k
  end.

(** [d[k] = v]: an existing key keeps its place, a new one goes last. *)
Fixpoint dict_set (d : dict) (k v : string) : dict :=
  match d with
  | [] => [(k, v)]
  | (k', v') :: d' =>
      if String.eqb k k' then (k', v) :: d' else (k', v') :: dict_set d' k v
  end.

Fixpoint dict_del (d : dict) (k : string) : dict :=
  match d with
  | [] => []
  | (k', v') :: d' => if String.eqb k k' then d' else (k', v') :: dict_del d' k
  end.

Definition dict_keys (d : dict) : list string := map fst d.

Definition dict_mem (k : string) (d : dict) : bool :=
  existsb (String.eqb k) (dict_keys d).

(* ------------------------------------------------------------------ *)
(** ** The compiled regular expressions *)

(** Longest prefix whose characters satisfy [p], and the rest. *)
Fixpoint span (p : ascii -> bool) (s : string) : string * string :=
  match s with
  | EmptyString => (EmptyString, EmptyString)
  | String c s' =>
      if p c then let (a, b) := span p s' in (String c a, b)
      else (EmptyString, s)
  end.

Definition not_lt (c : ascii) : bool := negb (Ascii.eqb c "<"%char).

(** A match of [adif_specifier_re] ('<', a run of word characters, ':',
    digits, an optional ':' and word character, '>', then the value up
    to the next '<')
    anchored at the start of the text: group 1, group 2, group 4 and the
    offset of group 4 from the start of the match.  Neither [\w+] nor
    [\d+] can give characters back to what follows them ([:] and [>] are
    not word characters), so the greedy match is the only one; the
    optional [(:\w)] is tried first, then the bare [>]. *)
Record spec_match := {
  sm_tag : string;
  sm_len : string;
  sm_value : string;
  sm_off4 : nat
}.

Definition match_specifier_at (s : string) : option spec_match :=
  match s with
  | String lt r =>
      if negb (Ascii.eqb lt "<"%char) then None else
      let (tag, r1) := span is_word r in
      match tag, r1 with
      | String _ _, String colon r2 =>
          if negb (Ascii.eqb colon ":"%char) then None else
          let (dg, r3) := span is_digit r2 in
          let tail :=
            match r3 with
            | String c1 (String t (String c2 r4)) =>
                if Ascii.eqb c1 ":"%char && is_word t && Ascii.eqb c2 ">"%char
                then Some (2, r4)
                else if Ascii.eqb c1 ">"%char
                     then Some (0, String t (String c2 r4)) else None
            | String c1 r4 => if Ascii.eqb c1 ">"%char then Some (0, r4) else None
            | EmptyString => None
            end in
          match dg, tail with
          | String _ _, Some (k, r4) =>
              Some {| sm_tag := tag; sm_len := dg;
                      sm_value := fst (span not_lt r4);
                      sm_off4 := 1 + String.length tag + 1 + String.length dg + k + 1 |}
          | _, _ => None
          end
      | _, _ => None
      end
  | EmptyString => None
  end.

(** [re.search]: the left-most match, with its start index. *)
Fixpoint search_specifier_from (i : nat) (s : string) : option (nat * spec_match) :=
  match match_specifier_at s with
  | Some m => Some (i, m)
  | None =>
      match s with
      | EmptyString => None
      | String _ s' => search_specifier_from (S i) s'
      end
  end.

Definition search_specifier (s : string) : option (nat * spec_match) :=
  search_specifier_from 0 s.

(** Case-insensitive literal search ([re.IGNORECASE] on an upper-case
    ASCII literal): the end index of the left-most occurrence. *)
Fixpoint search_literal_from (i : nat) (p s : string) : option nat :=
  if prefix_of p (upper s) then Some (i + String.length p) else
  match s with
  | EmptyString => None
  | String _ s' => search_literal_from (S i) p s'
  end.

(** [adif_eoh_re.search(s).end()] *)
Definition search_eoh (s : string) : option nat := search_literal_from 0 "<EOH>" s.

(** [adif_eor_re.search(s).end()] *)
Definition search_eor (s : string) : option nat := search_literal_from 0 "<EOR>" s.

(* ------------------------------------------------------------------ *)
(** ** [freq2band]

    The band table holds Python float literals; each entry below is the
    exact value of the binary64 number the literal denotes (the source
    literal is in the comment).  The argument [fmhz] is a finite float
    (or an int), taken by its exact value: Python compares such numbers
    exactly, so [<] and [<=] are the comparisons of rationals. *)
Definition bandmap_freqs : list Q := [
  (* 0.1357 *) 2444553877736705 # 18014398509481984;
  (* 0.1378 *) 4964768229213235 # 36028797018963968;
  (* 0.472 *) 1062849512059437 # 2251799813685248;
  (* 0.479 *) 4314448443020935 # 9007199254740992;
  (* 0.501 *) 4512606826625237 # 9007199254740992;
  (* 0.504 *) 1134907106097365 # 2251799813685248;
  (* 1.8 *) 8106479329266893 # 4503599627370496;
  (* 2.0 *) 2 # 1;
  (* 3.5 *) 7 # 2;
  (* 4.0 *) 4 # 1;
  (* 5.06 *) 5697053528623677 # 1125899906842624;
  (* 5.45 *) 6136154492292301 # 1125899906842624;
  (* 7.0 *) 7 # 1;
  (* 7.3 *) 8219069319951155 # 1125899906842624;
  (* 10.1 *) 5685794529555251 # 562949953421312;
  (* 10.15 *) 5713942027226317 # 562949953421312;
  (* 14.0 *) 14 # 1;
  (* 14.35 *) 8078331831595827 # 562949953421312;
  (* 18.068 *) 5085689879208133 # 281474976710656;
  (* 18.168 *) 2556918688439599 # 140737488355328;
  (* 21.0 *) 21 # 1;
  (* 21.45 *) 6037638250443571 # 281474976710656;
  (* 24.890 *) 1751478042582057 # 70368744177664;
  (* 24.99 *) 7034059667999293 # 281474976710656;
  (* 28.0 *) 28 # 1;
  (* 29.7 *) 8359806808306483 # 281474976710656;
  (* 50.0 *) 50 # 1;
  (* 54.0 *) 54 # 1;
  (* 70.0 *) 70 # 1;
  (* 71.0 *) 71 # 1;
  (* 144.0 *) 144 # 1;
  (* 148.0 *) 148 # 1;
  (* 222.0 *) 222 # 1;
  (* 225.0 *) 225 # 1;
  (* 420.0 *) 420 # 1;
  (* 450.0 *) 450 # 1;
  (* 902.0 *) 902 # 1;
  (* 928.0 *) 928 # 1;
  (* 1240.0 *) 1240 # 1;
  (* 1300.0 *) 1300 # 1;
  (* 2300.0 *) 2300 # 1;
  (* 2450.0 *) 2450 # 1;
  (* 3300.0 *) 3300 # 1;
  (* 3500.0 *) 3500 # 1;
  (* 5650.0 *) 5650 # 1;
  (* 5925.0 *) 5925 # 1;
  (* 10000.0 *) 10000 # 1;
  (* 10500.0 *) 10500 # 1;
  (* 24000.0 *) 24000 # 1;
  (* 24250.0 *) 24250 # 1;
  (* 47000.0 *) 47000 # 1;
  (* 47200.0 *) 47200 # 1;
  (* 75500.0 *) 75500 # 1;
  (* 81000.0 *) 81000 # 1;
  (* 119980.0 *) 119980 # 1;
  (* 120020.0 *) 120020 # 1;
  (* 142000.0 *) 142000 # 1;
  (* 149000.0 *) 149000 # 1;
  (* 241000.0 *) 241000 # 1;
  (* 250000.0 *) 250000 # 1]%Q.

Definition bandmap_bands : list string := [
  "2190m"; "2190m"; "630m"; "630m"; "560m"; "560m"; "160m"; "160m"; "80m"; "80m"; "60m"; "60m"; "40m"; "40m"; "30m"; "30m"; "20m"; "20m"; "17m"; "17m"; "15m"; "15m"; "12m"; "12m"; "10m"; "10m"; "6m"; "6m"; "4m"; "4m"; "2m"; "2m"; "1.25m"; "1.25m"; "70cm"; "70cm"; "33cm"; "33cm"; "23cm"; "23cm"; "13cm"; "13cm"; "9cm"; "9cm"; "6cm"; "6cm"; "3cm"; "3cm"; "1.25cm"; "1.25cm"; "6mm"; "6mm"; "4mm"; "4mm"; "2.5mm"; "2.5mm"; "2mm"; "2mm"; "1mm"; "1mm"].

Definition Qltb (x y : Q) : bool := negb (Qle_bool y x).

(** [range(start, stop, step)] for [step > 0]. *)
Definition py_range (start stop step : nat) : list nat :=
  map (fun j => start + step * j) (seq 0 ((stop - start + step - 1) / step)).

(** The [for i in range(0, max, 2):] loop of [freq2band]. *)
Fixpoint band_loop (fmhz : Q) (idxs : list nat) : string :=
  match idxs with
  | [] => "NONE"
  | i :: idxs' =>
      if Qle_bool (nth i bandmap_freqs 0%Q) fmhz && Qle_bool fmhz (nth (i + 1) bandmap_freqs 0%Q)
      then nth i bandmap_bands ""
      else band_loop fmhz idxs'
  end.

Definition freq2band (fmhz : Q) : string :=
  let max := List.length bandmap_freqs - 1 in
  if Qltb fmhz (nth 0 bandmap_freqs 0%Q) then "NONE"
  else if Qltb (nth max bandmap_freqs 0%Q) fmhz then "NONE"
  else band_loop fmhz (py_range 0 max 2).

(** The [i]-th band of the table: [bandmap_freqs[2i] <= f <= bandmap_freqs[2i+1]]. *)
Definition in_band (i : nat) (f : Q) : Prop :=
  (nth (2 * i) bandmap_freqs 0%Q <= f <= nth (2 * i + 1) bandmap_freqs 0%Q)%Q.

(* ------------------------------------------------------------------ *)
(** ** The [adif] object *)

Record adif := mk_adif {
  QSO : dict;
  HEADER : dict;
  EOH_flag : bool;      (* self._EOH *)
  line : string         (* self._line *)
}.

Definition adif_init (d : option dict) : adif :=
  {| QSO := match d with Some q => q | None => [] end;
     HEADER := []; EOH_flag := false; line := "" |}.

(** [clear]: a fresh QSO dict, and the pending line is reset too. *)
Definition clear (a : adif) : adif :=
  {| QSO := []; HEADER := HEADER a; EOH_flag := EOH_flag a; line := "" |}.

Definition with_QSO (a : adif) (q : dict) : adif :=
  {| QSO := q; HEADER := HEADER a; EOH_flag := EOH_flag a; line := line a |}.

Definition with_line (a : adif) (l : string) : adif :=
  {| QSO := QSO a; HEADER := HEADER a; EOH_flag := EOH_flag a; line := l |}.

(** [copy_from(adif)]: after [clear()], the object takes the other
    object's QSO and HEADER dicts (the same objects, not copies) and its
    pending line; its own [_EOH] flag is kept. *)
Definition copy_from (a b : adif) : adif :=
  let a := clear a in
  {| QSO := QSO b; HEADER := HEADER b; EOH_flag := EOH_flag a; line := line b |}.

(** [eoh()] *)
Definition eoh (a : adif) : bool := EOH_flag a.

Definition normalize (field : string) : string := upper (strip field).

Definition set_field (a : adif) (field value : string) : adif :=
  with_QSO a (dict_set (QSO a) (normalize field) value).

Definition del_field (a : adif) (field : string) : adif :=
  let f := normalize field in
  if dict_mem f (QSO a) then with_QSO a (dict_del (QSO a) f) else a.

Definition get_field (a : adif) (field : string) : string :=
  match dict_get (QSO a) (normalize field) with Some v => v | None => "" end.

Definition get_field_names (a : adif) : list string := dict_keys (QSO a).

Definition has_field (a : adif) (field : string) : bool :=
  existsb (String.eqb (normalize field)) (get_field_names a).

Definition get_record (a : adif) : dict := QSO a.

Definition render_field (kv : string * string) : string :=
  "<" ++ fst kv ++ ":" ++ str_of_nat (String.length (snd kv)) ++ ">" ++ snd kv ++ " ".

(** [sorted()] on distinct keys: ascending code-point order, which is
    [String.compare] on ASCII.  Any correct sort yields the same list. *)
Fixpoint insert_sorted (k : string) (l : list string) : list string :=
  match l with
  | [] => [k]
  | k' :: l' => if String.leb k k' then k :: l else k' :: insert_sorted k l'
  end.

Fixpoint sort_strings (l : list string) : list string :=
  match l with
  | [] => []
  | k :: l' => insert_sorted k (sort_strings l')
  end.

Definition dict_value (d : dict) (k : string) : string :=
  match dict_get d k with Some v => v | None => "" end.

(** [get_adif]: every field [<TAG:LEN>VALUE ] in sorted key order, then [<EOR>]. *)
Definition get_adif (a : adif) : string :=
  fold_left (fun acc field => acc ++ render_field (field, dict_value (QSO a) field))
            (sort_strings (dict_keys (QSO a))) "" ++ "<EOR>".

(** [get_header]: every header field [<TAG:LEN>VALUE] followed by a
    newline, in sorted key order. *)
Definition render_header_field (kv : string * string) : string :=
  "<" ++ fst kv ++ ":" ++ str_of_nat (String.length (snd kv)) ++ ">" ++ snd kv
  ++ String (ascii_of_nat 10) EmptyString.

Definition get_header (a : adif) : string :=
  fold_left (fun acc field => acc ++ render_header_field (field, dict_value (HEADER a) field))
            (sort_strings (dict_keys (HEADER a))) "".

(** The header-field mirroring at the end of each [parse] iteration. *)
Definition mirror_header (tag value : string) (h : dict) : dict :=
  if String.eqb tag "ADIF_VER" then dict_set h tag value
  else if String.eqb tag "ADIF_VERS" then dict_set (dict_set h tag value) "ADIF_VER" value
  else if String.eqb tag "CREATED_TIMESTAMP" then dict_set h tag value
  else if String.eqb tag "PROGRAMID" then dict_set h tag value
  else if String.eqb tag "PROGRAMVERSION" then dict_set h tag value
  else if startswith tag "USERDEF" then dict_set h tag value
  else h.

(** The effective field length: [min(int(group 2), len(group 4))]. *)
Definition clamped_len (m : spec_match) : nat :=
  let sz := digits_value (sm_len m) in
  let sz1 := String.length (sm_value m) in
  if Z.ltb (Z.of_nat sz1) sz then sz1 else Z.to_nat sz.

(** One pass of the [while m:] loop of [parse] on a match at index [i]:
    the tag, the stored value and the remainder [record[pos:]]. *)
Definition scan_step (i : nat) (m : spec_match) (record : string)
  : string * string * string :=
  let tag := upper (sm_tag m) in
  let sz := clamped_len m in
  let value := substring 0 sz (sm_value m) in
  let pos := i + sm_off4 m + sz in
  (tag, value, drop pos record).

(** The [while m:] loop; every pass drops at least one character, so
    [length record + 1] passes are enough (see [scan_fields_done]). *)
Fixpoint scan_fields (fuel : nat) (qso hdr : dict) (record : string)
  : dict * dict * string :=
  match fuel with
  | O => (qso, hdr, record)
  | S fuel' =>
      match search_specifier record with
      | None => (qso, hdr, record)
      | Some (i, m) =>
          let '(tag, value, record') := scan_step i m record in
          scan_fields fuel' (dict_set qso tag value) (mirror_header tag value hdr) record'
      end
  end.

Definition scan (qso hdr : dict) (record : string) : dict * dict * string :=
  scan_fields (S (String.length record)) qso hdr record.

(** [parse(record, new)]: the updated object and [eor_found]. *)
Definition parse (a : adif) (record : string) (new : bool) : adif * bool :=
  let a0 := {| QSO := QSO a; HEADER := HEADER a; EOH_flag := false; line := line a |} in
  let a1 := if new then clear a0 else a0 in
  let '(qso, hdr, rest) := scan (QSO a1) (HEADER a1) record in
  let a2 := {| QSO := qso; HEADER := hdr; EOH_flag := EOH_flag a1; line := line a1 |} in
  let eor_found := if search_eor rest then true else false in
  let a3 := match search_eoh rest with
            | Some _ => let c := clear a2 in
                        {| QSO := QSO c; HEADER := HEADER c; EOH_flag := true; line := line c |}
            | None => a2
            end in
  (a3, eor_found).

(* ------------------------------------------------------------------ *)
(** ** [next_record] over a file given as its remaining lines *)

(** Modelled from the spec: [strutils.make_utf8], which is not part of
    the sources.  The spec has the stream deliver text already decoded,
    with undecodable bytes dropped; on such (ASCII) text it returns the
    text unchanged. *)
Definition make_utf8 (l : string) : string := l.

Definition flatten_line (l : string) : string :=
  replace_char (ascii_of_nat 13) " "%char (replace_char (ascii_of_nat 10) " "%char (make_utf8 l)).

(** The [for line in file:] loop.  [inl (a, rest)] is [return True]
    from inside the loop with the lines not yet read; [inr (a, eor)] is
    the state when the file is exhausted. *)
Fixpoint next_record_loop (a : adif) (eor : bool) (file : list string)
  : (adif * list string) + (adif * bool) :=
  match file with
  | [] => inr (a, eor)
  | l :: file' =>
      let a := with_line a (line a ++ flatten_line l) in
      let '(a, eor) :=
        match search_eoh (line a) with
        | Some idx => let a := fst (parse a (line a) true) in
                      (with_line a (drop idx (line a)), false)
        | None => (a, eor)
        end in
      match search_eor (line a) with
      | Some idx =>
          let '(a, eor) := parse a (line a) eor in
          if eor then inl (with_line a (drop idx (line a)), file')
          else next_record_loop a eor file'
      | None => next_record_loop a eor file'
      end
  end.

(** [next_record(file)]: the new object, the result and the lines of
    the file left unread. *)
Definition next_record (a : adif) (file : list string) : adif * bool * list string :=
  let first :=
    match search_eor (line a) with
    | Some idx =>
        let '(a', eor) := parse a (line a) true in
        if eor then inl (with_line a' (drop idx (line a'))) else inr (a', eor)
    | None => inr (a, true)
    end in
  match first with
  | inl a' => (a', true, file)
  | inr (a, eor) =>
      match next_record_loop a eor file with
      | inl (a', rest) => (a', true, rest)
      | inr (a, eor) =>
          match search_eor (line a) with
          | Some idx =>
              let '(a', eor) := parse a (line a) eor in
              if eor then (with_line a' (drop idx (line a')), true, [])
              else (a', false, [])
          | None => (a, false, [])
          end
      end
  end.

(** The part of [next_record] after its first check: the [for line in
    file] loop and the check of what is left at the end of the file,
    run from the object [a] with the flag [eor]. *)
Definition next_record_stream (a : adif) (eor : bool) (file : list string)
  : adif * bool * list string :=
  match next_record_loop a eor file with
  | inl (a', rest) => (a', true, rest)
  | inr (a, eor) =>
      match search_eor (line a) with
      | Some idx =>
          let '(a', eor) := parse a (line a) eor in
          if eor then (with_line a' (drop idx (line a')), true, [])
          else (a', false, [])
      | None => (a, false, [])
      end
  end.

Definition mkq (l : string) : adif :=
  {| QSO := []; HEADER := []; EOH_flag := false; line := l |}.

Example parse_ex1 :
  parse (mkq "") "<A:3>xyz<B:1>q<EOR>" true
  = ({| QSO := [("A","xyz"); ("B","q")]; HEADER := []; EOH_flag := false; line := "" |}, true).
Proof. vm_compute. reflexivity. Qed.

Example parse_ex2 : fst (parse (mkq "") "<A:10>ab<EOR>" true) = mkq "" -> False.
Proof. vm_compute. discriminate. Qed.

(* ------------------------------------------------------------------ *)
(** ** [datetime] and [timedelta] *)

Local Open Scope Z_scope.

Record datetime := mk_datetime {
  dt_year : Z; dt_month : Z; dt_day : Z;
  dt_hour : Z; dt_minute : Z; dt_second : Z
}.

Definition is_leap (y : Z) : bool :=
  Z.eqb (y mod 4) 0 && (negb (Z.eqb (y mod 100) 0) || Z.eqb (y mod 400) 0).

Definition days_in_month (y m : Z) : Z :=
  if Z.eqb m 2 then (if is_leap y then 29 else 28)
  else if Z.eqb m 4 || Z.eqb m 6 || Z.eqb m 9 || Z.eqb m 11 then 30
  else 31.

Definition days_before_month (y m : Z) : Z :=
  nth (Z.to_nat m) [0; 0; 31; 59; 90; 120; 151; 181; 212; 243; 273; 304; 334]%Z 0%Z
  + (if Z.ltb 2 m && is_leap y then 1 else 0).

Definition days_before_year (y : Z) : Z :=
  let y1 := y - 1 in y1 * 365 + y1 / 4 - y1 / 100 + y1 / 400.

(** [datetime.toordinal()] *)
Definition toordinal (d : datetime) : Z :=
  days_before_year (dt_year d) + days_before_month (dt_year d) (dt_month d) + dt_day d.

Definition in_range (lo x hi : Z) : bool := Z.leb lo x && Z.leb x hi.

(** [datetime(y, mo, d, h, mi, s)]; [None] is its [ValueError]. *)
Definition mk_dt (y mo d h mi s : Z) : option datetime :=
  if in_range 1 y 9999 && in_range 1 mo 12 && in_range 1 d (days_in_month y mo)
     && in_range 0 h 23 && in_range 0 mi 59 && in_range 0 s 59
  then Some (mk_datetime y mo d h mi s) else None.

(** A normalised [timedelta] (no microseconds occur here):
    [0 <= seconds < 86400]. *)
Record timedelta := mk_td { td_days : Z; td_seconds : Z }.

Definition td_of_seconds (t : Z) : timedelta := mk_td (t / 86400) (t mod 86400).

Definition td_total (t : timedelta) : Z := td_days t * 86400 + td_seconds t.

Definition secs_of_day (d : datetime) : Z :=
  dt_hour d * 3600 + dt_minute d * 60 + dt_second d.

(** [dt1 - dt2] *)
Definition dt_sub (d1 d2 : datetime) : timedelta :=
  td_of_seconds ((toordinal d1 - toordinal d2) * 86400 + (secs_of_day d1 - secs_of_day d2)).

(** [abs(td)] *)
Definition td_abs (t : timedelta) : timedelta :=
  if Z.ltb (td_days t) 0 then td_of_seconds (- td_total t) else t.

Local Close Scope Z_scope.

(* ------------------------------------------------------------------ *)
(** ** [adifMerge]: [minimumQso], [modeMatch], [timeMatch], [match] *)

Definition rec_field (record : dict) (field : string) : string :=
  get_field (adif_init (Some record)) field.

Definition minimumQso (record : dict) : bool :=
  let a1 := adif_init (Some record) in
  has_field a1 "CALL" && has_field a1 "BAND" && has_field a1 "MODE"
  && has_field a1 "QSO_DATE" && has_field a1 "TIME_ON".

Definition modeMatch (record1 record2 : dict) : bool :=
  let m1 := upper (rec_field record1 "MODE") in
  let m2 := upper (rec_field record2 "MODE") in
  let sm1 := upper (rec_field record1 "SUBMODE") in
  let sm2 := upper (rec_field record2 "SUBMODE") in
  let has_sm1 := Nat.ltb 0 (String.length sm1) in
  let has_sm2 := Nat.ltb 0 (String.length sm2) in
  if Nat.eqb (String.length m1) 0 || Nat.eqb (String.length m2) 0 then false
  else if String.eqb m1 m2 then
    (if has_sm1 && has_sm2 then String.eqb sm1 sm2 else true)
  else if String.eqb m1 sm2 then true
  else if String.eqb m2 sm1 then true
  else false.

Definition obind {A B} (o : option A) (f : A -> option B) : option B :=
  match o with Some x => f x | None => None end.

Notation "x <- c ;; k" := (obind c (fun x => k))
  (at level 61, c at next level, right associativity).

(** [datetime(int(d[0:4]), int(d[4:6]), int(d[6:8]), int(t[0:2]),
    int(t[2:4]), tsec)] with [tsec] computed first, as in the source. *)
Definition record_datetime (d t : string) : option datetime :=
  tsec <- (if Nat.ltb 4 (String.length t) then py_int (slice 4 6 t) else Some 0%Z) ;;
  y <- py_int (slice 0 4 d) ;;
  mo <- py_int (slice 4 6 d) ;;
  dd <- py_int (slice 6 8 d) ;;
  h <- py_int (slice 0 2 t) ;;
  mi <- py_int (slice 2 4 t) ;;
  mk_dt y mo dd h mi tsec.

(** [timeMatch]; [ms] is [self.MaxSeconds]; [None] is a raised error. *)
Definition timeMatch (ms : Z) (record1 record2 : dict) : option bool :=
  let d1 := rec_field record1 "QSO_DATE" in
  let d2 := rec_field record2 "QSO_DATE" in
  let t1 := rec_field record1 "TIME_ON" in
  let t2 := rec_field record2 "TIME_ON" in
  dt1 <- record_datetime d1 t1 ;;
  dt2 <- record_datetime d2 t2 ;;
  let td := td_abs (dt_sub dt1 dt2) in
  Some (Z.eqb (td_days td) 0 && Z.leb (td_seconds td) ms).

(** [match]; [None] is an error raised by [timeMatch]. *)
Definition match_ (ms : Z) (record1 record2 : dict) : option bool :=
  if negb (minimumQso record1) then Some false
  else if negb (minimumQso record2) then Some false
  else if String.eqb (upper (rec_field record1 "CALL")) (upper (rec_field record2 "CALL"))
       && String.eqb (upper (rec_field record1 "BAND")) (upper (rec_field record2 "BAND"))
       && modeMatch record1 record2
  then timeMatch ms record1 record2
  else Some false.

(* ------------------------------------------------------------------ *)
(** ** [qslrcvd] *)

(** [clublog_rcvd] *)
Definition clublog_rcvd (qso : dict) : bool :=
  let myAdif := adif_init (Some qso) in
  let clublog_qsl_rcvd := get_field myAdif "APP_MASTERLOG_CLUBLOG_QSL" in
  let clublog_qslrdate := get_field myAdif "APP_MASTERLOG_CLUBLOG_QSLRDATE" in
  String.eqb clublog_qsl_rcvd "Y" || String.eqb clublog_qsl_rcvd "V"
  || Nat.ltb 0 (String.length clublog_qslrdate).

(** [eqsl_rcvd] *)
Definition eqsl_rcvd (qso : dict) : bool :=
  let myAdif := adif_init (Some qso) in
  let eqsl_qsl_rcvd := get_field myAdif "EQSL_QSL_RCVD" in
  let eqsl_qslrdate := get_field myAdif "EQSL_QSLRDATE" in
  String.eqb eqsl_qsl_rcvd "Y" || Nat.ltb 0 (String.length eqsl_qslrdate).

(** [lotw_qsl_rcvd] *)
Definition lotw_qsl_rcvd (qso : dict) : bool :=
  let myAdif := adif_init (Some qso) in
  let lotw_2xqsl := get_field myAdif "APP_LOTW_2XQSL" in
  let lotw_qslmode := get_field myAdif "APP_LOTW_QSLMODE" in
  let lotw_rxqsl := get_field myAdif "APP_LOTW_RXQSL" in
  let lotw_qsl := get_field myAdif "LOTW_QSL_RCVD" in
  String.eqb lotw_qsl "Y" || Nat.ltb 0 (String.length lotw_2xqsl)
  || Nat.ltb 0 (String.length lotw_qslmode) || Nat.ltb 0 (String.length lotw_rxqsl).

(** [qrz_qsl_rcvd] *)
Definition qrz_qsl_rcvd (qso : dict) : bool :=
  let myAdif := adif_init (Some qso) in
  String.eqb (get_field myAdif "APP_QRZLOG_STATUS") "C".

(** [qsl_rcvd] *)
Definition qsl_rcvd (qso : dict) : bool :=
  let myAdif := adif_init (Some qso) in
  let qsl_rcvd := get_field myAdif "QSL_RCVD" in
  if String.eqb qsl_rcvd "Y" || String.eqb qsl_rcvd "V" then true
  else if clublog_rcvd qso then true
  else if eqsl_rcvd qso then true
  else if lotw_qsl_rcvd qso then true
  else if qrz_qsl_rcvd qso then true
  else false.

(* ------------------------------------------------------------------ *)
(** ** [merge] over a store of dict objects

    [adif(d)] keeps a reference to the caller's dict [d] (it does not
    copy it), so [set_field] on [a_into] mutates the caller's
    [into_record].  Dict objects live in a store; a reference is an
    index into it.  A reference outside the store reads as an empty dict
    and writes to it are lost. *)

Definition heap := list dict.
Definition ref := nat.

Definition read (h : heap) (p : ref) : dict := nth p h [].

Fixpoint write (h : heap) (p : ref) (d : dict) : heap :=
  match h, p with
  | [], _ => []
  | _ :: h', O => d :: h'
  | x :: h', S p' => x :: write h' p' d
  end.

(** A new dict object, e.g. the literal [{}]. *)
Definition alloc (h : heap) (d : dict) : heap * ref := (app h [d], List.length h).

(** The [for field in from_fields:] loop of [merge]; [a_from] and
    [a_into] are views of the dicts at [pf] and [pi], re-read at every
    step since both may be mutated (and may be the same object). *)
Fixpoint merge_loop (update : bool) (pf pi : ref) (fields : list string)
         (h : heap) (modified : bool) : heap * bool :=
  match fields with
  | [] => (h, modified)
  | field :: fields' =>
      let a_from := adif_init (Some (read h pf)) in
      let a_into := adif_init (Some (read h pi)) in
      let data_from := get_field a_from field in
      if negb (has_field a_into field) then
        merge_loop update pf pi fields'
          (write h pi (QSO (set_field a_into field data_from))) true
      else if update then
        let data_into := get_field a_into field in
        if negb (String.eqb data_from data_into) then
          merge_loop update pf pi fields'
            (write h pi (QSO (set_field a_into field data_from))) true
        else merge_loop update pf pi fields' h modified
      else merge_loop update pf pi fields' h modified
  end.

(** [merge(from_record, into_record, update_fields)]: the store after
    the call and [(modified, merged_record)]; [None] is an error raised
    by [match]. *)
Definition merge (ms : Z) (h : heap) (pf pi : ref) (update : bool)
  : option (heap * (bool * ref)) :=
  let '(h, merged_record) := alloc h [] in
  if negb (minimumQso (read h pf)) then Some (h, (false, merged_record))
  else if negb (minimumQso (read h pi)) then Some (h, (false, merged_record))
  else
    match match_ ms (read h pf) (read h pi) with
    | None => None
    | Some false => Some (h, (false, merged_record))
    | Some true =>
        let from_fields := get_field_names (adif_init (Some (read h pf))) in
        let '(h, modified) := merge_loop update pf pi from_fields h false in
        Some (h, (modified, pi))
    end.

(* ------------------------------------------------------------------ *)
(** ** [adif_iter] *)

(** What one call of [next_record] on the open file does: return a
    result, or raise an exception (an instance of [Exception]) after
    having changed the object and consumed part of the file. *)
Inductive reader_outcome :=
| Returned (a : adif) (status : bool) (rest : list string)
| Raised (a : adif) (rest : list string) (errmsg : string).

(** The [next_record] of [adif.py], which returns normally. *)
Definition next_record_outcome (a : adif) (file : list string) : reader_outcome :=
  let '(a', st, rest) := next_record a file in Returned a' st rest.

Record adif_iter := mk_iter {
  adifobj : adif;
  fileobj : option (list string)   (* [None] or the unread lines *)
}.

(** Outcome of [__next__]: a record, [StopIteration], or an exception
    propagated to the caller. *)
Inductive next_result :=
| Yield (qso : dict)
| StopIteration
| Propagated (errmsg : string).

Section Iterator.

Variable next_record_impl : adif -> list string -> reader_outcome.

(** [close]: [fileobj.close()] names an undefined global, so it raises
    [NameError], which the [except Exception: pass] swallows. *)
Definition close (it : adif_iter) : adif_iter :=
  match fileobj it with
  | Some _ => mk_iter (adifobj it) None
  | None => it
  end.

(** [next_qso]: the [try]/[except Exception] around [next_record]. *)
Definition next_qso (it : adif_iter) : adif_iter * (dict * bool * string) :=
  match fileobj it with
  | None => (it, ([], false, ""))
  | Some f =>
      match next_record_impl (adifobj it) f with
      | Returned a status rest =>
          (mk_iter a (Some rest), ((if status then get_record a else []), status, ""))
      | Raised a rest errmsg =>
          (mk_iter a (Some rest), (get_record a, false, errmsg))
      end
  end.

(** [__next__] *)
Definition iter_next (it : adif_iter) : adif_iter * next_result :=
  let '(it, (qso, status, errmsg)) := next_qso it in
  if status then
    (if Nat.ltb 0 (List.length qso) then (it, Yield qso)
     else (close it, StopIteration))
  else (close it, StopIteration).

(** A [for qso in ...:] loop over the iterator, collecting the records
    it yields, for at most [fuel] steps; it ends at [StopIteration] (and
    at an exception, which would leave the loop). *)
Fixpoint for_qsos (fuel : nat) (it : adif_iter) : list dict * adif_iter :=
  match fuel with
  | O => ([], it)
  | S fuel' =>
      match iter_next it with
      | (it', Yield qso) => let '(qsos, it'') := for_qsos fuel' it' in (qso :: qsos, it'')
      | (it', _) => ([], it')
      end
  end.

End Iterator.

(* ------------------------------------------------------------------ *)
(** ** Vocabulary for the statements *)

Fixpoint all_chars (p : ascii -> bool) (s : string) : bool :=
  match s with
  | EmptyString => true
  | String c s' => p c && all_chars p s'
  end.

(** What follows a maximal run: nothing, or a character outside it. *)
Definition run_stops (p : ascii -> bool) (s : string) : Prop :=
  s = EmptyString \/ exists c r, s = String c r /\ p c = false.

(** A stored key is trimmed and upper-case. *)
Definition key_normal (k : string) : Prop := strip k = k /\ upper k = k.

Definition keys_normal (d : dict) : Prop :=
  forall k, In k (dict_keys d) -> key_normal k.

Definition keys_nonempty (d : dict) : Prop :=
  forall k, In k (dict_keys d) -> k <> EmptyString.

(** A [datetime] as seconds since the proleptic Gregorian epoch. *)
Definition dt_seconds (d : datetime) : Z :=
  (toordinal d * 86400 + secs_of_day d)%Z.

(** A field that [get_adif] writes and [parse] reads back unchanged:
    a non-empty upper-case tag of word characters and a value without
    ['<']. *)
Definition field_ok (kv : string * string) : Prop :=
  fst kv <> EmptyString /\ all_chars is_word (fst kv) = true /\
  upper (fst kv) = fst kv /\ all_chars not_lt (snd kv) = true.

(** [<TAG:LEN>VALUE] followed by the separator [sep]. *)
Definition rfield (sep : ascii) (kv : string * string) : string :=
  "<" ++ fst kv ++ ":" ++ str_of_nat (String.length (snd kv)) ++ ">" ++ snd kv
  ++ String sep EmptyString.

(** The tags [parse] copies into [HEADER]. *)
Definition header_tag (k : string) : Prop :=
  k = "ADIF_VER" \/ k = "ADIF_VERS" \/ k = "CREATED_TIMESTAMP" \/
  k = "PROGRAMID" \/ k = "PROGRAMVERSION" \/ startswith k "USERDEF" = true.

(** No carriage return or line feed. *)
Definition no_crlf (c : ascii) : bool :=
  negb (Ascii.eqb c (ascii_of_nat 10)) && negb (Ascii.eqb c (ascii_of_nat 13)).

(** The fields [qsl_rcvd] and its helpers read. *)
Definition qsl_keys : list string :=
  ["QSL_RCVD"; "APP_MASTERLOG_CLUBLOG_QSL"; "APP_MASTERLOG_CLUBLOG_QSLRDATE";
   "EQSL_QSL_RCVD"; "EQSL_QSLRDATE"; "APP_LOTW_2XQSL"; "APP_LOTW_QSLMODE";
   "APP_LOTW_RXQSL"; "LOTW_QSL_RCVD"; "APP_QRZLOG_STATUS"].

(** [HEADER] of [a'] keeps every key of [a] and adds only header tags. *)
Definition hdr_grows (a a' : adif) : Prop :=
  (forall k, In k (dict_keys (HEADER a)) -> In k (dict_keys (HEADER a'))) /\
  (forall k, In k (dict_keys (HEADER a')) -> In k (dict_keys (HEADER a)) \/ header_tag k).

(** Two objects that differ at most in their [_EOH] flag. *)
Definition same_but_eoh (x y : adif) : Prop :=
  QSO x = QSO y /\ HEADER x = HEADER y /\ line x = line y.

Definition sbe_result {B : Type} (u v : (adif * B) + (adif * bool)) : Prop :=
  match u, v with
  | inl (x, r), inl (y, r') => same_but_eoh x y /\ r = r'
  | inr (x, e), inr (y, e') => same_but_eoh x y /\ e = e'
  | _, _ => False
  end.

(* ================================================================== *)
(** * Lemmas *)

Section ScannerFacts.

Lemma span_spec : forall p s a b,
  span p s = (a, b) -> s = a ++ b /\ all_chars p a = true /\ run_stops p b.
Proof.
  intros p s; induction s as [|c s IH]; intros a b H; simpl in H.
  - inversion H; subst. repeat split. left; reflexivity.
  - destruct (p c) eqn:Hc.
    + destruct (span p s) as [a' b'] eqn:Hs. injection H as <- <-.
      destruct (IH a' b' eq_refl) as [-> [Ha Hb]].
      repeat split; simpl; try rewrite Hc; auto.
    + inversion H; subst. repeat split; simpl; auto.
      right. exists c, s. auto.
Qed.

Lemma drop_app : forall a b, drop (String.length a) (a ++ b) = b.
Proof. induction a; simpl; auto. Qed.

Lemma string_app_assoc : forall a b c, a ++ (b ++ c) = (a ++ b) ++ c.
Proof. induction a; simpl; congruence. Qed.

Lemma drop_app_add : forall a n b, drop (String.length a + n) (a ++ b) = drop n b.
Proof. induction a; simpl; auto. Qed.

Lemma drop_add : forall n k s, drop (n + k) s = drop k (drop n s).
Proof.
  induction n; intros k s; simpl; auto.
  destruct s; simpl; auto. destruct k; auto.
Qed.

Lemma drop_suffix : forall n s, exists pre, s = pre ++ drop n s.
Proof.
  induction n; intros s.
  - exists EmptyString. reflexivity.
  - destruct s as [|c s].
    + exists EmptyString. reflexivity.
    + destruct (IHn s) as [pre Hp]. exists (String c pre). simpl. congruence.
Qed.

Lemma drop_length_lt : forall n s,
  1 <= n -> s <> EmptyString -> String.length (drop n s) < String.length s.
Proof.
  intros [|n] s Hn Hs; [lia|].
  destruct s as [|c s]; [congruence|]. simpl.
  destruct (drop_suffix n s) as [pre Hp].
  assert (String.length s = String.length pre + String.length (drop n s)).
  { rewrite Hp at 1. clear. induction pre; simpl; auto. }
  lia.
Qed.

Lemma substring_full : forall s, substring 0 (String.length s) s = s.
Proof. induction s; simpl; congruence. Qed.

Lemma match_specifier_nonempty : forall s m,
  match_specifier_at s = Some m -> s <> EmptyString.
Proof. intros [|c s] m H; [discriminate|congruence]. Qed.

Lemma search_specifier_from_nonempty : forall s i r,
  search_specifier_from i s = Some r -> s <> EmptyString.
Proof. intros [|c s] i r H; [discriminate|congruence]. Qed.

Lemma off4_pos : forall s m, match_specifier_at s = Some m -> 1 <= sm_off4 m.
Proof.
  intros [|c s] m H; [discriminate|]. unfold match_specifier_at in H.
  repeat match goal with
         | H : context [if ?b then _ else _] |- _ => destruct b
         | H : context [let (_, _) := ?x in _] |- _ => destruct x
         | H : context [match ?x with _ => _ end] |- _ => destruct x
         end; try discriminate; inversion H; simpl; lia.
Qed.

(** Shape of a match: [s = <prefix of length off4> ++ value ++ rest],
    the value has no ['<'] and [rest] is empty or starts with ['<']. *)
Lemma match_specifier_value : forall s m,
  match_specifier_at s = Some m ->
  exists rest,
    drop (sm_off4 m) s = sm_value m ++ rest /\
    all_chars not_lt (sm_value m) = true /\ run_stops not_lt rest.
Proof.
  intros [|lt r] m H; [discriminate|]. simpl in H.
  destruct (negb (Ascii.eqb lt "<"%char)); [discriminate|].
  destruct (span is_word r) as [tag r1] eqn:Hw.
  apply span_spec in Hw. destruct Hw as [Hr _]. subst r.
  destruct tag as [|t0 tag]; [discriminate|].
  destruct r1 as [|colon r2]; [discriminate|].
  destruct (negb (Ascii.eqb colon ":"%char)); [discriminate|].
  destruct (span is_digit r2) as [dg r3] eqn:Hd.
  apply span_spec in Hd. destruct Hd as [Hr2 _]. subst r2.
  destruct dg as [|d0 dg]; [discriminate|].
  assert (Htail : forall k r4, drop (k + 1) r3 = r4 ->
            forall m', m' = {| sm_tag := String t0 tag; sm_len := String d0 dg;
                               sm_value := fst (span not_lt r4);
                               sm_off4 := 1 + String.length (String t0 tag) + 1
                                          + String.length (String d0 dg) + k + 1 |} ->
            exists rest,
              drop (sm_off4 m') (String lt (String t0 tag ++ String colon (String d0 dg ++ r3)))
                = sm_value m' ++ rest /\
              all_chars not_lt (sm_value m') = true /\ run_stops not_lt rest).
  { intros k r4 Hr4 m' ->. cbn [sm_off4 sm_value].
    destruct (span not_lt r4) as [v rest] eqn:Hv. apply span_spec in Hv.
    destruct Hv as [Hv1 [Hv2 Hv3]]. exists rest. cbn [fst]. split; [|auto].
    replace (1 + String.length (String t0 tag) + 1 + String.length (String d0 dg) + k + 1)
      with (S (String.length (String t0 tag) + S (String.length (String d0 dg) + (k + 1))))
      by lia.
    cbn [drop]. rewrite drop_app_add. cbn [drop]. rewrite drop_app_add.
    rewrite Hr4. auto. }
  destruct r3 as [|c1 [|t [|c2 r4]]]; try discriminate.
  - destruct (Ascii.eqb c1 ">"%char) eqn:E; [|discriminate]. inversion H.
    apply (Htail 0 EmptyString); reflexivity.
  - destruct (Ascii.eqb c1 ">"%char) eqn:E; [|discriminate]. inversion H.
    apply (Htail 0 (String t EmptyString)); reflexivity.
  - destruct (Ascii.eqb c1 ":"%char && is_word t && Ascii.eqb c2 ">"%char).
    + inversion H. apply (Htail 2 r4); reflexivity.
    + destruct (Ascii.eqb c1 ">"%char); [|discriminate]. inversion H.
      apply (Htail 0 (String t (String c2 r4))); reflexivity.
Qed.

End ScannerFacts.

Lemma search_specifier_from_cons : forall i c s,
  search_specifier_from i (String c s) =
  match match_specifier_at (String c s) with
  | Some m => Some (i, m)
  | None => search_specifier_from (S i) s
  end.
Proof. reflexivity. Qed.

Lemma search_specifier_from_spec : forall s i j m,
  search_specifier_from i s = Some (j, m) ->
  exists pre s', s = pre ++ s' /\ j = i + String.length pre /\ match_specifier_at s' = Some m.
Proof.
  induction s as [|c s IH]; intros i j m H.
  - discriminate.
  - rewrite search_specifier_from_cons in H.
    destruct (match_specifier_at (String c s)) eqn:E.
    + injection H as <- <-. exists EmptyString, (String c s).
      split; [reflexivity|]. split; [simpl; lia|assumption].
    + destruct (IH _ _ _ H) as [pre [s' [-> [-> Hm]]]].
      exists (String c pre), s'. simpl. repeat split; auto; lia.
Qed.

Lemma search_specifier_value : forall record i m,
  search_specifier record = Some (i, m) ->
  exists rest,
    drop (i + sm_off4 m) record = sm_value m ++ rest /\
    all_chars not_lt (sm_value m) = true /\ run_stops not_lt rest.
Proof.
  intros record i m H. apply search_specifier_from_spec in H.
  destruct H as [pre [s' [-> [-> Hm]]]]. simpl.
  rewrite drop_app_add. apply match_specifier_value; auto.
Qed.

Lemma scan_step_drops : forall record i m tag value record',
  search_specifier record = Some (i, m) ->
  scan_step i m record = (tag, value, record') ->
  String.length record' < String.length record.
Proof.
  intros record i m tag value record' H Hs. unfold scan_step in Hs. inversion Hs; subst.
  apply search_specifier_from_spec in H. destruct H as [pre [s' [Hr [Hi Hm]]]].
  apply drop_length_lt.
  - pose proof (off4_pos _ _ Hm). lia.
  - subst. apply match_specifier_nonempty in Hm. destruct pre; simpl; congruence.
Qed.

(** The scanning loop stops because no specifier is left, not because
    the bound on its passes runs out. *)
Lemma scan_fields_done : forall fuel qso hdr record,
  String.length record < fuel ->
  search_specifier (snd (scan_fields fuel qso hdr record)) = None.
Proof.
  induction fuel as [|fuel IH]; intros qso hdr record Hf; [lia|]. cbn [scan_fields].
  destruct (search_specifier record) as [[i m]|] eqn:E; [|assumption].
  destruct (scan_step i m record) as [[tag value] record'] eqn:Es.
  apply IH. pose proof (scan_step_drops _ _ _ _ _ _ E Es). lia.
Qed.

Lemma scan_fields_rest : forall fuel qso hdr qso' hdr' record,
  snd (scan_fields fuel qso hdr record) = snd (scan_fields fuel qso' hdr' record).
Proof.
  induction fuel as [|fuel IH]; intros; cbn [scan_fields]; auto.
  destruct (search_specifier record) as [[i m]|]; auto.
  destruct (scan_step i m record) as [[tag value] record']. apply IH.
Qed.

Lemma scan_fields_suffix : forall fuel qso hdr record,
  exists pre, record = pre ++ snd (scan_fields fuel qso hdr record).
Proof.
  induction fuel as [|fuel IH]; intros; cbn [scan_fields].
  - exists EmptyString. reflexivity.
  - destruct (search_specifier record) as [[i m]|].
    + unfold scan_step.
      destruct (drop_suffix (i + sm_off4 m + clamped_len m) record) as [p1 H1].
      destruct (IH (dict_set qso (upper (sm_tag m)) (substring 0 (clamped_len m) (sm_value m)))
                   (mirror_header (upper (sm_tag m)) (substring 0 (clamped_len m) (sm_value m)) hdr)
                   (drop (i + sm_off4 m + clamped_len m) record)) as [p2 H2].
      exists (p1 ++ p2). rewrite <- string_app_assoc. congruence.
    + exists EmptyString. reflexivity.
Qed.

Lemma search_literal_cons_none : forall p i c s,
  search_literal_from i p (String c s) = None -> search_literal_from (S i) p s = None.
Proof. intros p i c s H. simpl in H. destruct (prefix_of p _); congruence. Qed.

Lemma search_literal_index_none : forall p s i j,
  search_literal_from i p s = None -> search_literal_from j p s = None.
Proof.
  intros p s; induction s as [|c s IH]; intros i j H; simpl in *;
    destruct (prefix_of p _); try discriminate; eauto.
Qed.

Lemma search_literal_app_none : forall p pre s i,
  search_literal_from i p (pre ++ s) = None -> search_literal_from i p s = None.
Proof.
  intros p pre; induction pre as [|c pre IH]; intros s i H; simpl in *; auto.
  apply search_literal_cons_none in H. apply IH in H.
  eapply search_literal_index_none; eauto.
Qed.

Lemma dict_get_set_same : forall d k v, dict_get (dict_set d k v) k = Some v.
Proof.
  induction d as [|[k' v'] d IH]; intros k v; simpl.
  - rewrite String.eqb_refl. reflexivity.
  - destruct (String.eqb k k') eqn:E; simpl; rewrite ?E; auto.
Qed.

Lemma dict_get_set_other : forall d k k' v,
  k <> k' -> dict_get (dict_set d k' v) k = dict_get d k.
Proof.
  induction d as [|[k0 v0] d IH]; intros k k' v Hne; simpl.
  - apply String.eqb_neq in Hne. rewrite Hne. reflexivity.
  - destruct (String.eqb k' k0) eqn:E1; simpl.
    + apply String.eqb_eq in E1. subst k0.
      assert (E2 : String.eqb k k' = false) by (apply String.eqb_neq; auto).
      rewrite E2. reflexivity.
    + destruct (String.eqb k k0); auto.
Qed.

Lemma clamped_len_actual : forall m,
  (Z.of_nat (String.length (sm_value m)) <= digits_value (sm_len m))%Z ->
  clamped_len m = String.length (sm_value m).
Proof.
  intros m H. unfold clamped_len.
  destruct (Z.ltb_spec (Z.of_nat (String.length (sm_value m))) (digits_value (sm_len m))).
  - reflexivity.
  - lia.
Qed.

(* ================================================================== *)
(** * Claims *)

(** C2: when the declared length of a specifier exceeds the text that
    follows it up to the next ['<'] (or the end of the buffer), the
    stored value is that whole text, i.e. the length is clamped to the
    actual one; [parse] has no failure outcome.  Concretely, parsing
    [<A:10>ab<EOR>] stores [A = "ab"] and reports the end of record. *)
Theorem parse_clamps_declared_length :
  (forall record i m,
     search_specifier record = Some (i, m) ->
     (Z.of_nat (String.length (sm_value m)) <= digits_value (sm_len m))%Z ->
     exists rest,
       drop (i + sm_off4 m) record = sm_value m ++ rest /\
       all_chars not_lt (sm_value m) = true /\ run_stops not_lt rest /\
       snd (fst (scan_step i m record)) = sm_value m) /\
  (forall a, parse a "<A:10>ab<EOR>" true =
     ({| QSO := [("A", "ab")]; HEADER := HEADER a; EOH_flag := false; line := "" |}, true)).
Proof.
  split.
  - intros record i m Hs Hlen.
    destruct (search_specifier_value _ _ _ Hs) as [rest [H1 [H2 H3]]].
    exists rest. repeat split; auto.
    unfold scan_step. simpl. rewrite clamped_len_actual by assumption.
    apply substring_full.
  - intros a. reflexivity.
Qed.

Lemma parse_clamps_declared_length_witness :
  search_specifier "<A:10>ab<EOR>" = Some (0, {| sm_tag := "A"; sm_len := "10"; sm_value := "ab"; sm_off4 := 6 |}) /\
  (Z.of_nat (String.length "ab") <= digits_value "10")%Z /\
  snd (fst (scan_step 0 {| sm_tag := "A"; sm_len := "10"; sm_value := "ab"; sm_off4 := 6 |}
                      "<A:10>ab<EOR>")) = "ab".
Proof.
  split; [reflexivity|]. split; [vm_compute; discriminate|].
  destruct (proj1 parse_clamps_declared_length "<A:10>ab<EOR>" 0
              {| sm_tag := "A"; sm_len := "10"; sm_value := "ab"; sm_off4 := 6 |}
              eq_refl ltac:(vm_compute; discriminate)) as [rest [_ [_ [_ H]]]].
  exact H.
Defined.

(** C3: for every buffer and flag, [parse] returns [true] exactly when
    an end-of-record marker [<EOR>] (any case) occurs in the buffer left
    after field scanning, i.e. after the last specifier found; that
    remainder is a suffix of the buffer with no specifier in it, so a
    buffer without [<EOR>] gives [false].  Parsing
    [<A:3>xyz<B:1>q<EOR>] stores [A = "xyz"], [B = "q"] and returns [true]. *)
Theorem parse_returns_eor_presence :
  (forall a record new,
     let rest := snd (scan [] [] record) in
     snd (parse a record new) = (if search_eor rest then true else false) /\
     search_specifier rest = None /\
     (exists pre, record = pre ++ rest)) /\
  (forall a record new, search_eor record = None -> snd (parse a record new) = false) /\
  (forall a new,
     let '(a', eor) := parse a "<A:3>xyz<B:1>q<EOR>" new in
     dict_get (QSO a') "A" = Some "xyz" /\ dict_get (QSO a') "B" = Some "q" /\ eor = true).
Proof.
  assert (Hrest : forall a record new,
     snd (parse a record new) = (if search_eor (snd (scan [] [] record)) then true else false)).
  { intros a record new. unfold parse.
    set (a1 := if new then _ else _).
    unfold scan. rewrite (scan_fields_rest _ [] [] (QSO a1) (HEADER a1)).
    destruct (scan_fields _ (QSO a1) (HEADER a1) record) as [[q h] r].
    destruct (search_eoh r); reflexivity. }
  split; [|split].
  - intros a record new rest. split; [apply Hrest|]. split.
    + apply scan_fields_done. lia.
    + apply scan_fields_suffix.
  - intros a record new H. rewrite Hrest.
    destruct (scan_fields_suffix (S (String.length record)) [] [] record) as [pre Hp].
    unfold search_eor in *. unfold scan.
    rewrite Hp in H. apply search_literal_app_none in H. rewrite H. reflexivity.
  - intros a new. destruct new; simpl.
    + repeat split; reflexivity.
    + change (upper_char "A") with "A"%char. change (upper_char "B") with "B"%char.
      split; [|split; [|reflexivity]].
      * rewrite dict_get_set_other by discriminate. apply dict_get_set_same.
      * apply dict_get_set_same.
Qed.

Lemma parse_returns_eor_presence_witness :
  search_eor "<A:1>x" = None /\ snd (parse (mkq "") "<A:1>x" true) = false.
Proof.
  split; [reflexivity|].
  apply (proj1 (proj2 parse_returns_eor_presence) (mkq "") "<A:1>x" true). reflexivity.
Defined.

(** C4 (as stated, refuted): a reachable object whose pending buffer
    contains [<EOR>] but for which [next_record] does not return [true]
    at once.  The file [<EOH>], [<EOR><A:1>x] leaves the pending buffer
    [<EOR><A:1>x ]; parsing it finds the field after the marker, which
    drops the marker from the scan remainder, so [parse] reports no end
    of record and [next_record] goes on to the stream: on an exhausted
    stream it returns [false], on a further line it consumes that line. *)
Lemma next_record_pending_eor_counterexample :
  let nl := String (ascii_of_nat 10) EmptyString in
  let '(a1, r1, _) := next_record (adif_init None) ["<EOH>" ++ nl; "<EOR><A:1>x" ++ nl] in
  search_eor (line a1) <> None /\ r1 = false /\
  snd (fst (next_record a1 [])) = false /\
  snd (next_record a1 ["<B:1>y<EOR>" ++ nl]) = [].
Proof. vm_compute. repeat split; discriminate. Qed.

(** The lines [next_record_loop] leaves unread are what follows the
    lines it read, and it reads at least one line before returning. *)
Lemma next_record_loop_rest : forall file a eor a' rest,
  next_record_loop a eor file = inl (a', rest) ->
  exists l pre, file = l :: app pre rest.
Proof.
  induction file as [|l file IH]; intros a eor a' rest H; cbn [next_record_loop] in H.
  - discriminate H.
  - repeat match type of H with
      | context [match ?x with _ => _ end] => destruct x eqn:?
      end;
    try (injection H as <- <-; exists l, []; reflexivity);
    destruct (IH _ _ _ _ H) as [l' [pre ->]]; exists l, (l' :: pre); reflexivity.
Qed.

(** C4 (amended): when the pending buffer contains [<EOR>] and parsing
    it (with the record cleared first) reports an end of record,
    [next_record] returns [true] with the record parsed from that buffer
    and reads nothing from the stream; when that parse reports no end of
    record, [next_record] goes on to read the stream: it continues with
    the [for line in file] loop from the parsed object with [eor] false,
    and on a non-empty file it consumes at least the first line. *)
Theorem next_record_pending_eor :
  forall a file idx,
    search_eor (line a) = Some idx ->
    (snd (parse a (line a) true) = true ->
       exists a', next_record a file = (a', true, file) /\
                  QSO a' = QSO (fst (parse a (line a) true))) /\
    (snd (parse a (line a) true) = false ->
       next_record a file = next_record_stream (fst (parse a (line a) true)) false file /\
       forall l rest, file = l :: rest ->
         exists pre, rest = app pre (snd (next_record a file))).
Proof.
  intros a file idx Hm. split.
  - intros Hp. unfold next_record. rewrite Hm.
    destruct (parse a (line a) true) as [a' eor] eqn:E. simpl in Hp. subst eor.
    eexists. split; [reflexivity|]. reflexivity.
  - intros Hp.
    assert (Hs : next_record a file =
                 next_record_stream (fst (parse a (line a) true)) false file).
    { unfold next_record, next_record_stream. rewrite Hm.
      destruct (parse a (line a) true) as [a' eor] eqn:E. simpl in Hp. subst eor.
      reflexivity. }
    split; [exact Hs|].
    intros l rest ->. rewrite Hs. unfold next_record_stream.
    destruct (next_record_loop _ _ _) as [[a' r]|[a' eor]] eqn:El.
    + destruct (next_record_loop_rest _ _ _ _ _ El) as [l' [pre Hf]].
      injection Hf as _ ->. exists pre. reflexivity.
    + exists rest. cbn [snd fst].
      destruct (search_eor (line a')); [|symmetry; apply app_nil_r].
      destruct (parse a' (line a') eor) as [a'' []];
        cbn [snd]; symmetry; apply app_nil_r.
Qed.

Lemma next_record_pending_eor_witness :
  (search_eor (line (mkq "<A:1>x<EOR>")) = Some 11 /\
   snd (parse (mkq "<A:1>x<EOR>") "<A:1>x<EOR>" true) = true /\
   exists a', next_record (mkq "<A:1>x<EOR>") [] = (a', true, []) /\
              QSO a' = QSO (fst (parse (mkq "<A:1>x<EOR>") "<A:1>x<EOR>" true))) /\
  (search_eor (line (mkq "<EOR><A:1>x ")) = Some 5 /\
   snd (parse (mkq "<EOR><A:1>x ") "<EOR><A:1>x " true) = false /\
   next_record (mkq "<EOR><A:1>x ") ["<B:1>y<EOR>"; "<C:1>z<EOR>"] =
     next_record_stream (fst (parse (mkq "<EOR><A:1>x ") "<EOR><A:1>x " true)) false
       ["<B:1>y<EOR>"; "<C:1>z<EOR>"] /\
   exists pre, ["<C:1>z<EOR>"] =
     app pre (snd (next_record (mkq "<EOR><A:1>x ") ["<B:1>y<EOR>"; "<C:1>z<EOR>"]))).
Proof.
  split.
  - split; [reflexivity|]. split; [reflexivity|].
    apply (proj1 (next_record_pending_eor (mkq "<A:1>x<EOR>") [] 11 eq_refl)). reflexivity.
  - split; [reflexivity|]. split; [reflexivity|].
    destruct (proj2 (next_record_pending_eor (mkq "<EOR><A:1>x ")
                       ["<B:1>y<EOR>"; "<C:1>z<EOR>"] 5 eq_refl) eq_refl) as [H1 H2].
    split; [exact H1|]. exact (H2 _ _ eq_refl).
Defined.

(** On the first branch of [next_record], the text after the parsed
    [<EOR>] does not survive: [parse(..., True)] calls [clear], which
    also empties [self._line], before [self._line[idx:]] is taken. *)
Lemma next_record_pending_remainder_dropped :
  next_record (mkq "<A:1>x<EOR><B:1>y<EOR>") [] =
  ({| QSO := [("A", "x"); ("B", "y")]; HEADER := []; EOH_flag := false; line := "" |}, true, []).
Proof. reflexivity. Qed.

Lemma fold_append_concat : forall (g : string -> string) l init,
  fold_left (fun acc x => acc ++ g x) l init = init ++ String.concat "" (map g l).
Proof.
  intros g l; induction l as [|x l IH]; intros init; simpl.
  - symmetry. induction init; simpl; congruence.
  - rewrite IH. rewrite <- string_app_assoc. f_equal.
    destruct l; simpl; auto. induction (g x); simpl; congruence.
Qed.

Lemma string_leb_total : forall x y, String.leb x y = false -> String.leb y x = true.
Proof.
  intros x y H. unfold String.leb in *. rewrite String.compare_antisym.
  destruct (String.compare x y); simpl in *; congruence.
Qed.

Lemma insert_sorted_perm : forall k l, Permutation (insert_sorted k l) (k :: l).
Proof.
  intros k l; induction l as [|k' l IH]; simpl; auto.
  destruct (String.leb k k'); auto.
  eapply perm_trans; [apply perm_skip, IH|]. apply perm_swap.
Qed.

Lemma sort_strings_perm : forall l, Permutation (sort_strings l) l.
Proof.
  induction l as [|k l IH]; simpl; auto.
  eapply perm_trans; [apply insert_sorted_perm|]. auto.
Qed.

Lemma insert_sorted_sorted : forall k l,
  Sorted (fun x y => String.leb x y = true) l ->
  Sorted (fun x y => String.leb x y = true) (insert_sorted k l).
Proof.
  intros k l; induction l as [|k' l IH]; intros Hs; simpl.
  - repeat constructor.
  - destruct (String.leb k k') eqn:E.
    + constructor; auto.
    + apply string_leb_total in E. inversion Hs; subst.
      constructor; [apply IH; auto|].
      destruct l as [|k'' l]; simpl.
      * constructor. auto.
      * destruct (String.leb k k''); constructor; auto.
        inversion H2; auto.
Qed.

Lemma sort_strings_sorted : forall l,
  Sorted (fun x y => String.leb x y = true) (sort_strings l).
Proof. induction l; simpl; auto using insert_sorted_sorted. Qed.

(** C5: [get_adif] writes the fields in ascending tag order (a sorted
    permutation of the keys), each as [<TAG:LEN>VALUE ] with [LEN] the
    value's length, then [<EOR>]; a record parsed with [CALL = "W1AW"]
    and [BAND = "20m"] serialises to [<BAND:3>20m <CALL:4>W1AW <EOR>]. *)
Theorem get_adif_sorted_fields :
  (forall a, exists ks,
     Permutation ks (dict_keys (QSO a)) /\
     Sorted (fun x y => String.leb x y = true) ks /\
     get_adif a =
       String.concat "" (map (fun k => "<" ++ k ++ ":"
                                 ++ str_of_nat (String.length (dict_value (QSO a) k))
                                 ++ ">" ++ dict_value (QSO a) k ++ " ") ks) ++ "<EOR>") /\
  (forall a, get_adif (fst (parse a "<CALL:4>W1AW <BAND:3>20m <EOR>" true))
             = "<BAND:3>20m <CALL:4>W1AW <EOR>").
Proof.
  split.
  - intros a. exists (sort_strings (dict_keys (QSO a))).
    split; [apply sort_strings_perm|]. split; [apply sort_strings_sorted|].
    unfold get_adif. rewrite fold_append_concat. reflexivity.
  - intros a. reflexivity.
Qed.

Lemma td_abs_dt_sub : forall d1 d2,
  td_abs (dt_sub d1 d2) = td_of_seconds (Z.abs (dt_seconds d1 - dt_seconds d2)).
Proof.
  intros d1 d2. unfold td_abs, dt_sub, dt_seconds, td_total, td_of_seconds. cbn [td_days td_seconds].
  set (T := ((toordinal d1 - toordinal d2) * 86400 + (secs_of_day d1 - secs_of_day d2))%Z).
  replace (toordinal d1 * 86400 + secs_of_day d1 - (toordinal d2 * 86400 + secs_of_day d2))%Z
    with T by (unfold T; lia).
  pose proof (Z.div_mod T 86400 ltac:(lia)).
  destruct (Z.ltb_spec (T / 86400) 0).
  - assert (T < 0)%Z.
    { destruct (Z.ltb_spec T 0); auto.
      assert (0 <= T / 86400)%Z by (apply Z.div_pos; lia). lia. }
    rewrite Z.abs_neq by lia. f_equal; f_equal; lia.
  - assert (0 <= T)%Z.
    { destruct (Z.leb_spec 0 T); auto.
      assert (T / 86400 < 0)%Z by (apply Z.div_lt_upper_bound; lia). lia. }
    rewrite Z.abs_eq by lia. reflexivity.
Qed.

(** C1 (as stated, refuted): two viable records 23:59:30 on 2023-01-01
    and 00:00:30 on 2023-01-02 are 60 seconds apart on different
    calendar days, and [timeMatch] (default [MaxSeconds = 900]) accepts
    them: [td.days] of [abs(dt1 - dt2)] counts whole days of the
    difference, not calendar days. *)
Lemma timeMatch_midnight_counterexample :
  let r1 := [("CALL", "W1AW"); ("BAND", "20m"); ("MODE", "CW");
             ("QSO_DATE", "20230101"); ("TIME_ON", "235930")] in
  let r2 := [("CALL", "W1AW"); ("BAND", "20m"); ("MODE", "CW");
             ("QSO_DATE", "20230102"); ("TIME_ON", "000030")] in
  minimumQso r1 = true /\ minimumQso r2 = true /\
  timeMatch 900 r1 r2 = Some true.
Proof. vm_compute. repeat split. Qed.

(** C1 (amended): when both records' [QSO_DATE]/[TIME_ON] give valid
    datetimes (seconds 0 when [TIME_ON] has 4 characters), [timeMatch]
    returns [true] iff the absolute difference [D] in seconds satisfies
    [D < 86400] and [D <= MaxSeconds]; for [MaxSeconds < 86400] (the
    default is 900) this is just [D <= MaxSeconds], across midnight too. *)
Theorem timeMatch_within_max_seconds :
  forall ms record1 record2 dt1 dt2,
    record_datetime (rec_field record1 "QSO_DATE") (rec_field record1 "TIME_ON") = Some dt1 ->
    record_datetime (rec_field record2 "QSO_DATE") (rec_field record2 "TIME_ON") = Some dt2 ->
    let D := Z.abs (dt_seconds dt1 - dt_seconds dt2) in
    timeMatch ms record1 record2 = Some (Z.ltb D 86400 && Z.leb D ms) /\
    (ms < 86400 -> timeMatch ms record1 record2 = Some (Z.leb D ms))%Z.
Proof.
  intros ms record1 record2 dt1 dt2 H1 H2 D.
  assert (Ht : timeMatch ms record1 record2 = Some (Z.ltb D 86400 && Z.leb D ms)).
  { unfold timeMatch. rewrite H1, H2. simpl obind. rewrite td_abs_dt_sub.
    fold D. unfold td_of_seconds. cbn [td_days td_seconds]. f_equal.
    assert (0 <= D)%Z by (unfold D; lia).
    destruct (Z.ltb_spec D 86400).
    - rewrite Z.div_small, Z.mod_small by lia. reflexivity.
    - assert (1 <= D / 86400)%Z.
      { apply Z.div_le_lower_bound; lia. }
      destruct (Z.eqb_spec (D / 86400) 0); [lia|]. reflexivity. }
  split; [exact Ht|]. intros Hms. rewrite Ht. f_equal.
  destruct (Z.leb_spec D ms); destruct (Z.ltb_spec D 86400); simpl; auto; lia.
Qed.

Lemma timeMatch_within_max_seconds_witness :
  let r1 := [("CALL", "W1AW"); ("BAND", "20M"); ("MODE", "CW");
             ("QSO_DATE", "20230101"); ("TIME_ON", "235930")] in
  let r2 := [("CALL", "W1AW"); ("BAND", "20M"); ("MODE", "CW");
             ("QSO_DATE", "20230102"); ("TIME_ON", "000030")] in
  record_datetime (rec_field r1 "QSO_DATE") (rec_field r1 "TIME_ON")
    = Some (mk_datetime 2023 1 1 23 59 30) /\
  record_datetime (rec_field r2 "QSO_DATE") (rec_field r2 "TIME_ON")
    = Some (mk_datetime 2023 1 2 0 0 30) /\
  timeMatch 900 r1 r2 = Some true.
Proof.
  intros r1 r2.
  assert (H1 : record_datetime (rec_field r1 "QSO_DATE") (rec_field r1 "TIME_ON")
                 = Some (mk_datetime 2023 1 1 23 59 30)) by reflexivity.
  assert (H2 : record_datetime (rec_field r2 "QSO_DATE") (rec_field r2 "TIME_ON")
                 = Some (mk_datetime 2023 1 2 0 0 30)) by reflexivity.
  split; [exact H1|]. split; [exact H2|].
  destruct (timeMatch_within_max_seconds 900 r1 r2 _ _ H1 H2) as [Ht _].
  rewrite Ht. reflexivity.
Defined.

(* ------------------------------------------------------------------ *)
(** Key normalisation *)

Lemma upper_char_idem : forall c, upper_char (upper_char c) = upper_char c.
Proof. intros [[] [] [] [] [] [] [] []]; reflexivity. Qed.

Lemma is_space_upper_char : forall c, is_space (upper_char c) = is_space c.
Proof. intros [[] [] [] [] [] [] [] []]; reflexivity. Qed.

Lemma word_not_space : forall c, is_word c = true -> is_space (upper_char c) = false.
Proof. intros [[] [] [] [] [] [] [] []]; try reflexivity; discriminate. Qed.

Lemma upper_idem : forall s, upper (upper s) = upper s.
Proof. induction s; simpl; rewrite ?upper_char_idem; congruence. Qed.

Lemma upper_length : forall s, String.length (upper s) = String.length s.
Proof. induction s; simpl; auto. Qed.

Lemma lstrip_upper : forall s, lstrip (upper s) = upper (lstrip s).
Proof.
  induction s as [|c s IH]; simpl; auto.
  rewrite is_space_upper_char. destruct (is_space c); auto.
Qed.

Lemma rstrip_upper : forall s, rstrip (upper s) = upper (rstrip s).
Proof.
  induction s as [|c s IH]; simpl; auto.
  rewrite IH. rewrite is_space_upper_char.
  destruct (rstrip s); simpl; auto. destruct (is_space c); auto.
Qed.

Lemma strip_upper : forall s, strip (upper s) = upper (strip s).
Proof. intros s. unfold strip. rewrite lstrip_upper, rstrip_upper. reflexivity. Qed.

Lemma lstrip_idem : forall s, lstrip (lstrip s) = lstrip s.
Proof.
  induction s as [|c s IH]; simpl; auto.
  destruct (is_space c) eqn:E; auto. simpl. rewrite E. reflexivity.
Qed.

Lemma rstrip_cons : forall c s,
  rstrip (String c s) =
  match rstrip s with
  | EmptyString => if is_space c then EmptyString else String c EmptyString
  | r => String c r
  end.
Proof. reflexivity. Qed.

Lemma rstrip_idem : forall s, rstrip (rstrip s) = rstrip s.
Proof.
  induction s as [|c s IH]; [reflexivity|]. rewrite (rstrip_cons c s).
  destruct (rstrip s) as [|c' r] eqn:E.
  - destruct (is_space c) eqn:Ec; [reflexivity|]. simpl. rewrite Ec. reflexivity.
  - rewrite rstrip_cons, IH. reflexivity.
Qed.

(** After [lstrip] the text does not start with a space, and [rstrip]
    keeps its first character. *)
Lemma lstrip_rstrip_of_lstripped : forall s, lstrip (rstrip (lstrip s)) = rstrip (lstrip s).
Proof.
  induction s as [|c s IH]; [reflexivity|]. cbn [lstrip].
  destruct (is_space c) eqn:Ec; auto. rewrite rstrip_cons.
  destruct (rstrip s); rewrite ?Ec; simpl; rewrite Ec; reflexivity.
Qed.

Lemma strip_idem : forall s, strip (strip s) = strip s.
Proof.
  intros s. unfold strip. rewrite lstrip_rstrip_of_lstripped. apply rstrip_idem.
Qed.

Lemma normalize_ok : forall f,
  strip (normalize f) = normalize f /\ upper (normalize f) = normalize f.
Proof.
  intros f. unfold normalize. split.
  - rewrite strip_upper, strip_idem. reflexivity.
  - apply upper_idem.
Qed.

Lemma strip_no_space : forall s, all_chars (fun c => negb (is_space c)) s = true -> strip s = s.
Proof.
  intros s H. unfold strip.
  assert (Hl : lstrip s = s).
  { destruct s as [|c s]; simpl in *; auto.
    destruct (is_space c); simpl in H; [discriminate|auto]. }
  rewrite Hl. clear Hl. induction s as [|c s IH]; simpl in *; auto.
  destruct (is_space c) eqn:Ec; simpl in H; [discriminate|].
  rewrite IH by assumption. destruct s; simpl; rewrite ?Ec; reflexivity.
Qed.

Lemma upper_words_no_space : forall s,
  all_chars is_word s = true -> all_chars (fun c => negb (is_space c)) (upper s) = true.
Proof.
  induction s as [|c s IH]; simpl; auto. intros H.
  apply andb_prop in H. destruct H as [H1 H2].
  rewrite word_not_space by assumption. simpl. auto.
Qed.

Lemma match_specifier_tag : forall s m,
  match_specifier_at s = Some m ->
  all_chars is_word (sm_tag m) = true /\ sm_tag m <> EmptyString.
Proof.
  intros [|lt r] m H; [discriminate|]. simpl in H.
  destruct (negb (Ascii.eqb lt "<"%char)); [discriminate|].
  destruct (span is_word r) as [tag r1] eqn:Hw.
  apply span_spec in Hw. destruct Hw as [_ [Hw _]].
  destruct tag as [|t0 tag]; [discriminate|].
  destruct r1 as [|colon r2]; [discriminate|].
  destruct (negb (Ascii.eqb colon ":"%char)); [discriminate|].
  destruct (span is_digit r2) as [dg r3].
  destruct dg as [|d0 dg]; [discriminate|].
  repeat match goal with
         | H : context [match ?x with _ => _ end] |- _ => destruct x
         end; try discriminate; injection H as <-; simpl; split; auto; discriminate.
Qed.

Lemma dict_keys_set : forall d k v x,
  In x (dict_keys (dict_set d k v)) -> x = k \/ In x (dict_keys d).
Proof.
  induction d as [|[k' v'] d IH]; intros k v x H; simpl in *.
  - destruct H as [H|[]]; auto.
  - destruct (String.eqb k k'); simpl in H; destruct H as [H|H]; auto.
    destruct (IH _ _ _ H); auto.
Qed.

Lemma dict_keys_del : forall d k x, In x (dict_keys (dict_del d k)) -> In x (dict_keys d).
Proof.
  induction d as [|[k' v'] d IH]; intros k x H; simpl in *; auto.
  destruct (String.eqb k k'); simpl in H; auto. destruct H; eauto.
Qed.

Lemma scan_fields_keys : forall fuel qso hdr record x,
  In x (dict_keys (fst (fst (scan_fields fuel qso hdr record)))) ->
  In x (dict_keys qso) \/ (key_normal x /\ x <> EmptyString).
Proof.
  induction fuel as [|fuel IH]; intros qso hdr record x H; cbn [scan_fields] in H; auto.
  destruct (search_specifier record) as [[i m]|] eqn:Es; auto.
  unfold scan_step in H. apply IH in H. destruct H as [H|H]; auto.
  apply dict_keys_set in H. destruct H as [->|H]; auto. right.
  apply search_specifier_from_spec in Es. destruct Es as [pre [s' [_ [_ Hm]]]].
  destruct (match_specifier_tag _ _ Hm) as [Hw Hne]. split; [split|].
  - apply strip_no_space, upper_words_no_space, Hw.
  - apply upper_idem.
  - intros He. apply Hne. destruct (sm_tag m); [reflexivity|discriminate].
Qed.

Lemma parse_keys : forall a record new x,
  In x (dict_keys (QSO (fst (parse a record new)))) ->
  In x (dict_keys (QSO a)) \/ (key_normal x /\ x <> EmptyString).
Proof.
  intros a record new x H. unfold parse, scan in H.
  set (a1 := if new then _ else _) in H.
  destruct (scan_fields _ (QSO a1) (HEADER a1) record) as [[q h] r] eqn:E.
  assert (Hq : In x (dict_keys q) -> In x (dict_keys (QSO a)) \/ (key_normal x /\ x <> EmptyString)).
  { intros Hx. replace q with (fst (fst (scan_fields (S (String.length record)) (QSO a1) (HEADER a1) record))) in Hx
      by (rewrite E; reflexivity).
    apply scan_fields_keys in Hx. destruct Hx as [Hx|Hx]; auto. left.
    unfold a1 in Hx. destruct new; simpl in Hx; [contradiction|exact Hx]. }
  destruct (search_eoh r); simpl in H; [contradiction|auto].
Qed.

(** C8 (as stated, refuted): [set_field] with a whitespace-only name
    stores the empty key [""]; its docstring says no checks are made. *)
Lemma set_field_blank_name_counterexample :
  QSO (set_field (adif_init None) "   " "x") = [("", "x")].
Proof. reflexivity. Qed.

(** C8 (amended): [set_field], [get_field], [has_field] and [del_field]
    use [field.strip().upper()]; [set_field], [del_field] and [parse]
    keep every key of the QSO dict trimmed and upper-case, and
    non-empty as well as long as [set_field] is not given a name that
    strips to [""] ([parse] stores non-empty upper-cased [\w+] tags). *)
Theorem record_keys_normalized :
  (forall a f v, keys_normal (QSO a) -> keys_normal (QSO (set_field a f v))) /\
  (forall a f, keys_normal (QSO a) -> keys_normal (QSO (del_field a f))) /\
  (forall a r n, keys_normal (QSO a) -> keys_normal (QSO (fst (parse a r n)))) /\
  (forall a f v, keys_nonempty (QSO a) -> strip f <> EmptyString ->
                 keys_nonempty (QSO (set_field a f v))) /\
  (forall a f, keys_nonempty (QSO a) -> keys_nonempty (QSO (del_field a f))) /\
  (forall a r n, keys_nonempty (QSO a) -> keys_nonempty (QSO (fst (parse a r n)))) /\
  (forall a f, get_field a f = dict_value (QSO a) (normalize f) /\
               has_field a f = dict_mem (normalize f) (QSO a)).
Proof.
  split; [|split; [|split; [|split; [|split; [|split]]]]].
  - intros a f v H k Hk. apply dict_keys_set in Hk. destruct Hk as [->|Hk]; auto.
    apply normalize_ok.
  - intros a f H k Hk. unfold del_field in Hk.
    destruct (dict_mem _ _); simpl in Hk; auto. apply dict_keys_del in Hk; auto.
  - intros a r n H k Hk. apply parse_keys in Hk. destruct Hk as [Hk|[Hk _]]; auto.
  - intros a f v H Hf k Hk. apply dict_keys_set in Hk. destruct Hk as [->|Hk]; auto.
    unfold normalize. intros He. apply Hf.
    destruct (strip f); [reflexivity|discriminate].
  - intros a f H k Hk. unfold del_field in Hk.
    destruct (dict_mem _ _); simpl in Hk; auto. apply dict_keys_del in Hk; auto.
  - intros a r n H k Hk. apply parse_keys in Hk. destruct Hk as [Hk|[_ Hk]]; auto.
  - intros a f. split; reflexivity.
Qed.

Lemma record_keys_normalized_witness :
  let a := set_field (adif_init None) " call " "W1AW" in
  keys_normal (QSO a) /\ keys_nonempty (QSO a) /\
  keys_normal (QSO (fst (parse a "<band:3>20m<EOR>" false))) /\
  keys_nonempty (QSO (set_field a "mode" "CW")).
Proof.
  assert (Hn : keys_normal [("CALL", "W1AW")]).
  { intros k [<-|[]]. split; reflexivity. }
  assert (Hne : keys_nonempty [("CALL", "W1AW")]).
  { intros k [<-|[]]. discriminate. }
  split; [exact Hn|]. split; [exact Hne|]. split.
  - apply (proj1 (proj2 (proj2 record_keys_normalized))
             (set_field (adif_init None) " call " "W1AW") "<band:3>20m<EOR>" false). exact Hn.
  - apply (proj1 (proj2 (proj2 (proj2 record_keys_normalized)))
             (set_field (adif_init None) " call " "W1AW") "mode" "CW"); [exact Hne|discriminate].
Defined.

(** C9: in one [__next__] step, an exception raised by the reader's
    [next_record] is caught in [next_qso] and turned into the end of the
    iteration (the file is dropped and [StopIteration] raised); a
    [False] result, or a [True] result with an empty record, also ends
    it; no step propagates an exception to the caller. *)
Theorem iter_next_swallows_errors :
  forall (reader : adif -> list string -> reader_outcome) it,
    (forall msg, snd (iter_next reader it) <> Propagated msg) /\
    (forall f a rest msg, fileobj it = Some f -> reader (adifobj it) f = Raised a rest msg ->
       iter_next reader it = (mk_iter a None, StopIteration)) /\
    (forall f a rest, fileobj it = Some f -> reader (adifobj it) f = Returned a false rest ->
       iter_next reader it = (mk_iter a None, StopIteration)) /\
    (forall f a rest, fileobj it = Some f -> reader (adifobj it) f = Returned a true rest ->
       QSO a = [] -> iter_next reader it = (mk_iter a None, StopIteration)).
Proof.
  intros reader [obj file]. unfold iter_next, next_qso. cbn [fileobj adifobj].
  split; [|split; [|split]].
  - intros msg H. destruct file as [f|]; [|cbn in H; discriminate H].
    destruct (reader obj f) as [a [|] rest|a rest e]; cbn in H;
      try destruct (get_record a); cbn in H; discriminate H.
  - intros f a rest msg Hf Hr. cbn in Hf; subst file. rewrite Hr. reflexivity.
  - intros f a rest Hf Hr. cbn in Hf; subst file. rewrite Hr. reflexivity.
  - intros f a rest Hf Hr Hq. cbn in Hf; subst file. rewrite Hr.
    unfold get_record. rewrite Hq. reflexivity.
Qed.

Lemma iter_next_swallows_errors_witness :
  iter_next (fun _ _ => Raised (mkq "") [] "I/O error") (mk_iter (mkq "") (Some ["x"]))
  = (mk_iter (mkq "") None, StopIteration).
Proof.
  apply (proj1 (proj2 (iter_next_swallows_errors (fun _ _ => Raised (mkq "") [] "I/O error")
                                                 (mk_iter (mkq "") (Some ["x"]))))
           ["x"] (mkq "") [] "I/O error"); reflexivity.
Defined.

(* ------------------------------------------------------------------ *)
(** The store and the [merge] loop *)

Lemma read_alloc_empty : forall h p, read (app h [[]]) p = read h p.
Proof.
  intros h p. unfold read. destruct (Nat.ltb_spec p (List.length h)).
  - apply app_nth1; auto.
  - rewrite app_nth2 by auto. rewrite (nth_overflow h) by auto.
    destruct (p - List.length h) as [|[|n]]; reflexivity.
Qed.

Lemma write_length : forall h p d, List.length (write h p d) = List.length h.
Proof. induction h; intros [|p] d; simpl; auto. Qed.

Lemma read_write_same : forall h p d, p < List.length h -> read (write h p d) p = d.
Proof.
  induction h as [|x h IH]; intros [|p] d H; simpl in *; try lia; auto.
  apply IH. lia.
Qed.

Lemma read_write_other : forall h p q d, p <> q -> read (write h p d) q = read h q.
Proof.
  induction h as [|x h IH]; intros [|p] [|q] d H; simpl; auto; try congruence.
  unfold read in *. simpl. apply IH. congruence.
Qed.

Lemma read_nonempty_in_store : forall h p, read h p <> [] -> p < List.length h.
Proof.
  intros h p H. destruct (Nat.ltb_spec p (List.length h)); auto.
  exfalso. apply H. unfold read. apply nth_overflow. auto.
Qed.

Lemma minimumQso_nonempty : forall d, minimumQso d = true -> d <> [].
Proof. intros d H ->. discriminate. Qed.

Lemma match_viable : forall ms r1 r2 b,
  match_ ms r1 r2 = Some b -> b = true -> minimumQso r1 = true /\ minimumQso r2 = true.
Proof.
  intros ms r1 r2 b H ->. unfold match_ in H.
  destruct (minimumQso r1), (minimumQso r2); simpl in H; try discriminate; auto.
Qed.

Lemma dict_get_in : forall d k v, dict_get d k = Some v -> In k (dict_keys d).
Proof.
  induction d as [|[k' v'] d IH]; intros k v H; simpl in *; [discriminate|].
  destruct (String.eqb_spec k k'); [left; auto|right; eauto].
Qed.

Lemma dict_in_get : forall d k, In k (dict_keys d) -> exists v, dict_get d k = Some v.
Proof.
  induction d as [|[k' v'] d IH]; intros k H; simpl in *; [contradiction|].
  destruct (String.eqb_spec k k'); eauto.
  destruct H; [congruence|eauto].
Qed.

Lemma dict_get_none : forall d k, dict_get d k = None <-> ~ In k (dict_keys d).
Proof.
  intros d k. split.
  - intros H Hin. destruct (dict_in_get _ _ Hin) as [v Hv]. congruence.
  - intros H. destruct (dict_get d k) eqn:E; auto. exfalso. apply H. eapply dict_get_in; eauto.
Qed.

Lemma dict_keys_set_keep : forall d k v x,
  In x (dict_keys d) -> In x (dict_keys (dict_set d k v)).
Proof.
  induction d as [|[k' v'] d IH]; intros k v x H; simpl in *; [contradiction|].
  destruct (String.eqb k k'); simpl; destruct H; auto.
Qed.

Lemma dict_keys_set_new : forall d k v, In k (dict_keys (dict_set d k v)).
Proof. intros. eapply dict_get_in. apply dict_get_set_same. Qed.

Lemma existsb_eqb_in : forall k l, existsb (String.eqb k) l = true <-> In k l.
Proof.
  intros k l. rewrite existsb_exists. split.
  - intros [x [Hx Heq]]. apply String.eqb_eq in Heq. subst; auto.
  - intros H. exists k. rewrite String.eqb_refl. auto.
Qed.

Lemma has_field_in : forall d f,
  has_field (adif_init (Some d)) f = true <-> In (normalize f) (dict_keys d).
Proof. intros d f. apply existsb_eqb_in. Qed.

Lemma normal_key_normalize : forall k, key_normal k -> normalize k = k.
Proof. intros k [H1 H2]. unfold normalize. rewrite H1. exact H2. Qed.

Lemma merge_loop_length : forall update pf pi fs h m,
  List.length (fst (merge_loop update pf pi fs h m)) = List.length h.
Proof.
  induction fs as [|f fs IH]; intros h m; simpl; auto.
  repeat match goal with |- context [if ?b then _ else _] => destruct b end;
    rewrite ?IH, ?write_length; auto.
Qed.

Lemma merge_loop_other : forall update pf pi fs h m q,
  q <> pi -> read (fst (merge_loop update pf pi fs h m)) q = read h q.
Proof.
  induction fs as [|f fs IH]; intros h m q Hq; simpl; auto.
  repeat match goal with |- context [if ?b then _ else _] => destruct b end;
    rewrite ?IH, ?read_write_other; auto.
Qed.

Lemma merge_loop_keeps_keys : forall update pf pi fs h m k,
  In k (dict_keys (read h pi)) -> In k (dict_keys (read (fst (merge_loop update pf pi fs h m)) pi)).
Proof.
  induction fs as [|f fs IH]; intros h m k Hk; simpl; auto.
  destruct (Nat.ltb_spec pi (List.length h)) as [Hlt|Hge].
  - repeat match goal with |- context [if ?b then _ else _] => destruct b end;
      apply IH; auto; rewrite read_write_same by auto; apply dict_keys_set_keep; auto.
  - exfalso. unfold read in Hk. rewrite nth_overflow in Hk by auto. contradiction.
Qed.

Lemma merge_loop_covers : forall update pf pi fs h m k,
  pi < List.length h -> In k fs ->
  In (normalize k) (dict_keys (read (fst (merge_loop update pf pi fs h m)) pi)).
Proof.
  induction fs as [|f fs IH]; intros h m k Hpi Hk; [contradiction|].
  destruct Hk as [->|Hk].
  - simpl. destruct (has_field (adif_init (Some (read h pi))) k) eqn:Eh; simpl.
    + apply has_field_in in Eh.
      destruct update; [destruct (negb _)|]; apply merge_loop_keeps_keys; auto;
        rewrite read_write_same by auto; apply dict_keys_set_keep; auto.
    + apply merge_loop_keeps_keys. rewrite read_write_same by auto. apply dict_keys_set_new.
  - simpl. repeat match goal with |- context [if ?b then _ else _] => destruct b end;
      apply IH; rewrite ?write_length; auto.
Qed.

Lemma get_field_normal : forall F f,
  keys_normal F -> In f (dict_keys F) ->
  exists v, dict_get F f = Some v /\ get_field (adif_init (Some F)) f = v.
Proof.
  intros F f Hn Hf. destruct (dict_in_get _ _ Hf) as [v Hv]. exists v. split; auto.
  unfold get_field. simpl. rewrite normal_key_normalize by auto. rewrite Hv. reflexivity.
Qed.

Lemma merge_loop_no_update : forall pf pi F D0 fs h m,
  pf <> pi -> pi < List.length h -> read h pf = F -> keys_normal F ->
  (forall f, In f fs -> In f (dict_keys F)) ->
  (forall k v, dict_get D0 k = Some v -> dict_get (read h pi) k = Some v) ->
  (forall k, In k (dict_keys (read h pi)) -> ~ In k (dict_keys D0) ->
             dict_get (read h pi) k = dict_get F k) ->
  (m = false -> read h pi = D0) ->
  (m = true -> exists k, In k (dict_keys F) /\ ~ In k (dict_keys D0)) ->
  forall h' m', merge_loop false pf pi fs h m = (h', m') ->
  (forall k v, dict_get D0 k = Some v -> dict_get (read h' pi) k = Some v) /\
  (forall k, In k (dict_keys (read h' pi)) -> ~ In k (dict_keys D0) ->
             dict_get (read h' pi) k = dict_get F k) /\
  (m' = false -> read h' pi = D0) /\
  (m' = true -> exists k, In k (dict_keys F) /\ ~ In k (dict_keys D0)).
Proof.
  intros pf pi F D0 fs. induction fs as [|f fs IH];
    intros h m Hne Hpi HF Hn Hfs Hi Hii Hiii Hiv h' m' Hl.
  - simpl in Hl. inversion Hl; subst. auto.
  - cbn [merge_loop] in Hl. rewrite HF in Hl.
    assert (Hff : In f (dict_keys F)) by (apply Hfs; left; auto).
    destruct (get_field_normal F f Hn Hff) as [v [Hv Hgv]]. rewrite Hgv in Hl.
    assert (Hnf : normalize f = f) by (apply normal_key_normalize, Hn, Hff).
    destruct (has_field (adif_init (Some (read h pi))) f) eqn:Eh; simpl in Hl.
    + eapply IH; eauto. intros g Hg. apply Hfs. right; auto.
    + assert (Hnot : ~ In f (dict_keys (read h pi))).
      { intros Hin. rewrite <- Hnf in Hin. apply has_field_in in Hin. congruence. }
      unfold set_field in Hl. simpl QSO in Hl. rewrite Hnf in Hl.
      eapply IH; [exact Hne| | | exact Hn | | | | | | exact Hl].
      * rewrite write_length. auto.
      * rewrite read_write_other; auto.
      * intros g Hg. apply Hfs. right; auto.
      * intros k v0 Hk. rewrite read_write_same by auto.
        pose proof (Hi _ _ Hk) as Hc.
        rewrite dict_get_set_other; auto.
        intros ->. apply Hnot. eapply dict_get_in; eauto.
      * intros k Hk HD. rewrite read_write_same in * by auto.
        apply dict_keys_set in Hk. destruct (String.eqb_spec k f) as [->|Hkf].
        -- rewrite dict_get_set_same. auto.
        -- destruct Hk as [Hk|Hk]; [congruence|].
           rewrite dict_get_set_other by auto. auto.
      * discriminate.
      * intros _. exists f. split; auto. intros HD.
        destruct (dict_in_get _ _ HD) as [v0 Hv0]. apply Hnot.
        eapply dict_get_in. apply Hi. eauto.
Qed.

Lemma merge_loop_no_update_alias : forall update p D fs h m,
  read h p = D -> keys_normal D -> (forall f, In f fs -> In f (dict_keys D)) ->
  merge_loop update p p fs h m = (h, m).
Proof.
  intros update p D fs. induction fs as [|f fs IH]; intros h m HD Hn Hfs; simpl; auto.
  assert (Hff : In f (dict_keys D)) by (apply Hfs; left; auto).
  assert (Eh : has_field (adif_init (Some (read h p))) f = true).
  { apply has_field_in. rewrite HD, normal_key_normalize by auto. auto. }
  rewrite Eh, String.eqb_refl. simpl. destruct update;
    apply IH; auto; intros g Hg; apply Hfs; right; auto.
Qed.

(** C6: for a matching pair of viable records (keys of the source
    stored normalised, as the record model has them), [merge] with
    [update_fields = False] keeps every field of the destination with
    its value, adds every field present only in the source with the
    source's value, and reports [modified = True] exactly when some
    source field was absent from the destination.  Example: destination
    [NOTES = "old"], source [NOTES = "new"] and [RST_SENT = "599"] give
    [NOTES = "old"], [RST_SENT = "599"], [modified = True]. *)
Theorem merge_keeps_destination_fields :
  (forall ms h pf pi,
     keys_normal (read h pf) ->
     match_ ms (read h pf) (read h pi) = Some true ->
     exists h' modified,
       merge ms h pf pi false = Some (h', (modified, pi)) /\
       (forall k v, dict_get (read h pi) k = Some v -> dict_get (read h' pi) k = Some v) /\
       (forall k v, dict_get (read h pf) k = Some v -> dict_get (read h pi) k = None ->
                    dict_get (read h' pi) k = Some v) /\
       (modified = true <->
          exists k, In k (dict_keys (read h pf)) /\ dict_get (read h pi) k = None)) /\
  (let base := [("CALL", "W1AW"); ("BAND", "20M"); ("MODE", "CW");
                ("QSO_DATE", "20230101"); ("TIME_ON", "1200")] in
   let source := app base [("NOTES", "new"); ("RST_SENT", "599")] in
   let destination := app base [("NOTES", "old")] in
   exists h' p,
     merge 900 [source; destination] 0 1 false = Some (h', (true, p)) /\
     dict_get (read h' p) "NOTES" = Some "old" /\
     dict_get (read h' p) "RST_SENT" = Some "599").
Proof.
  split.
  - intros ms h pf pi Hn Hm.
    destruct (match_viable _ _ _ _ Hm eq_refl) as [Vf Vi].
    assert (Hpi : pi < List.length (app h [[]])).
    { rewrite length_app. apply minimumQso_nonempty, read_nonempty_in_store in Vi. lia. }
    unfold merge, alloc. rewrite !read_alloc_empty, Vf, Vi, Hm. simpl negb. cbv iota.
    unfold get_field_names. cbn [QSO adif_init].
    match goal with |- context [merge_loop ?u ?a ?b ?c ?d ?e] =>
      destruct (merge_loop u a b c d e) as [h' m'] eqn:El end.
    exists h', m'. split; [reflexivity|].
    assert (Hcov : forall k, In k (dict_keys (read h pf)) -> In k (dict_keys (read h' pi))).
    { intros k Hk. rewrite <- (normal_key_normalize k) by (apply Hn; auto).
      pose proof (merge_loop_covers false pf pi _ _ false k Hpi Hk) as Hc.
      match type of Hc with context [merge_loop ?u ?a ?b ?c ?d ?e] =>
        replace (merge_loop u a b c d e) with (h', m') in Hc by (symmetry; exact El) end.
      exact Hc. }
    destruct (Nat.eq_dec pf pi) as [<-|Hne].
    + rewrite (merge_loop_no_update_alias false pf (read h pf) _ _ _) in El;
        [|apply read_alloc_empty|assumption|auto].
      inversion El; subst h' m'. rewrite !read_alloc_empty.
      split; [auto|]. split; [intros k v H1 H2; congruence|].
      split; [discriminate|]. intros [k [Hk Hg]].
      apply dict_get_none in Hg. contradiction.
    + destruct (merge_loop_no_update pf pi (read h pf) (read h pi) (dict_keys (read h pf)) (app h [[]]) false Hne Hpi
                  (read_alloc_empty h pf) Hn (fun f Hf => Hf)
                  ltac:(intros k v Hk; rewrite read_alloc_empty; exact Hk)
                  ltac:(intros k Hk HD; rewrite read_alloc_empty in Hk; contradiction)
                  ltac:(intros _; apply read_alloc_empty)
                  ltac:(intros Hf; discriminate Hf) h' m' El) as [Hi [Hii [Hiii Hiv]]].
      split; [exact Hi|]. split.
      * intros k v Hf HD. apply dict_get_none in HD.
        rewrite Hii; auto. apply Hcov. eapply dict_get_in; eauto.
      * split.
        -- intros Ht. destruct (Hiv Ht) as [k [Hk HD]]. exists k. split; auto.
           apply dict_get_none. auto.
        -- intros [k [Hk HD]]. destruct m'; auto. exfalso.
           apply dict_get_none in HD. apply HD. rewrite <- (Hiii eq_refl). auto.
  - vm_compute. eexists _, _. split; [reflexivity|]. split; reflexivity.
Qed.

Lemma merge_keeps_destination_fields_witness :
  let r := [("CALL", "W1AW"); ("BAND", "20M"); ("MODE", "CW");
            ("QSO_DATE", "20230101"); ("TIME_ON", "1200")] in
  keys_normal r /\ match_ 900 r (app r [("NOTES", "x")]) = Some true /\
  exists h' modified, merge 900 [r; app r [("NOTES", "x")]] 0 1 false = Some (h', (modified, 1)).
Proof.
  intros r.
  assert (Hn : keys_normal r).
  { intros k Hk. simpl in Hk.
    repeat (destruct Hk as [<-|Hk]; [split; reflexivity|]); contradiction. }
  split; [exact Hn|]. split; [reflexivity|].
  destruct (proj1 merge_keeps_destination_fields 900%Z [r; app r [("NOTES", "x")]] 0 1 Hn eq_refl)
    as [h' [m [H _]]].
  exists h', m. exact H.
Defined.

Lemma merge_loop_update : forall pf pi F fs h m k,
  pf <> pi -> pi < List.length h -> read h pf = F -> keys_normal F ->
  (forall f, In f fs -> In f (dict_keys F)) ->
  (In k fs \/ dict_get (read h pi) k = dict_get F k) ->
  dict_get (read (fst (merge_loop true pf pi fs h m)) pi) k = dict_get F k.
Proof.
  intros pf pi F fs. induction fs as [|f fs IH]; intros h m k Hne Hpi HF Hn Hfs Hk.
  - destruct Hk as [[]|Hk]. exact Hk.
  - assert (Hff : In f (dict_keys F)) by (apply Hfs; left; auto).
    assert (Hfs' : forall g, In g fs -> In g (dict_keys F)) by (intros g Hg; apply Hfs; right; auto).
    destruct (get_field_normal F f Hn Hff) as [v [Hv Hgv]].
    assert (Hnf : normalize f = f) by (apply normal_key_normalize, Hn, Hff).
    assert (Hw : forall h1, pi < List.length h1 -> read h1 pf = F ->
              (In k (f :: fs) \/ dict_get (read h1 pi) k = dict_get F k) ->
              dict_get (read (fst (merge_loop true pf pi fs
                 (write h1 pi (QSO (set_field (adif_init (Some (read h1 pi))) f v))) true)) pi) k
              = dict_get F k).
    { intros h1 Hpi1 HF1 Hk1. apply IH; auto.
      - rewrite write_length; auto.
      - rewrite read_write_other; auto.
      - unfold set_field. simpl QSO. rewrite Hnf, read_write_same by auto.
        destruct (String.eqb_spec k f) as [->|Hkf].
        + right. rewrite dict_get_set_same. auto.
        + destruct Hk1 as [[->|Hk1]|Hk1]; [congruence|left; auto|].
          right. rewrite dict_get_set_other; auto. }
    cbn [merge_loop]. rewrite HF, Hgv.
    destruct (has_field (adif_init (Some (read h pi))) f) eqn:Eh; cbn [negb].
    + destruct (String.eqb v (get_field (adif_init (Some (read h pi))) f)) eqn:Ed; cbn [negb].
      * apply IH; auto.
        destruct (String.eqb_spec k f) as [->|Hkf].
        -- right. apply has_field_in in Eh. rewrite Hnf in Eh.
           destruct (dict_in_get _ _ Eh) as [w Hw'].
           apply String.eqb_eq in Ed. unfold get_field in Ed. simpl QSO in Ed.
           rewrite Hnf, Hw' in Ed. subst w. congruence.
        -- destruct Hk as [[->|Hk]|Hk]; [congruence|left; auto|right; auto].
      * apply Hw; auto.
    + apply Hw; auto.
Qed.

(** C10: [merge] returns the caller's [into_record] object itself.  For
    a matching pair of viable records the reference returned as
    [merged_record] is [pi], the reference passed as [into_record]; the
    store gains only the unused [{}] allocated at entry, every object
    other than [into_record] is left as it was, [into_record] now holds
    (the normalised name of) every source field, and with
    [update_fields = True] (source keys stored normalised) it holds each
    of them with the source's value.  Example: with the caller's dict at
    reference 1, [merge] returns reference 1, now carrying [NOTES]. *)
Theorem merge_returns_into_record :
  (forall ms h pf pi update,
     match_ ms (read h pf) (read h pi) = Some true ->
     exists h' modified,
       merge ms h pf pi update = Some (h', (modified, pi)) /\
       List.length h' = S (List.length h) /\
       (forall q, q <> pi -> read h' q = read (app h [[]]) q) /\
       (forall k, In k (dict_keys (read h pf)) -> In (normalize k) (dict_keys (read h' pi))) /\
       (update = true -> keys_normal (read h pf) ->
          forall k, In k (dict_keys (read h pf)) ->
                    dict_get (read h' pi) k = dict_get (read h pf) k)) /\
  (let base := [("CALL", "W1AW"); ("BAND", "20M"); ("MODE", "CW");
                ("QSO_DATE", "20230101"); ("TIME_ON", "1200")] in
   exists h',
     merge 900 [app base [("NOTES", "x")]; base] 0 1 true = Some (h', (true, 1)) /\
     read h' 1 = app base [("NOTES", "x")]).
Proof.
  split.
  - intros ms h pf pi update Hm.
    destruct (match_viable _ _ _ _ Hm eq_refl) as [Vf Vi].
    assert (Hpi : pi < List.length (app h [[]])).
    { rewrite length_app. apply minimumQso_nonempty, read_nonempty_in_store in Vi. lia. }
    unfold merge, alloc. rewrite !read_alloc_empty, Vf, Vi, Hm. simpl negb. cbv iota.
    unfold get_field_names. cbn [QSO adif_init].
    match goal with |- context [merge_loop ?u ?a ?b ?c ?d ?e] =>
      pose proof (merge_loop_length u a b c d e) as Hlen;
      pose proof (fun q Hq => merge_loop_other u a b c d e q Hq) as Hoth;
      pose proof (fun k Hk => merge_loop_covers u a b c d e k Hpi Hk) as Hcov;
      destruct (merge_loop u a b c d e) as [h' m'] eqn:El end.
    cbn [fst] in Hlen, Hoth, Hcov.
    exists h', m'. split; [reflexivity|].
    split; [rewrite Hlen, length_app; simpl; lia|].
    split; [exact Hoth|]. split; [exact Hcov|].
    intros -> Hn k Hk.
    destruct (Nat.eq_dec pf pi) as [<-|Hne].
    + rewrite (merge_loop_no_update_alias true pf (read h pf)) in El;
        [|apply read_alloc_empty|assumption|auto].
      injection El as <- _. rewrite read_alloc_empty. reflexivity.
    + pose proof (merge_loop_update pf pi (read h pf) (dict_keys (read h pf)) (app h [[]])
                    false k Hne Hpi (read_alloc_empty h pf) Hn (fun f Hf => Hf) (or_introl Hk))
        as Hu.
      match type of Hu with context [merge_loop ?u ?a ?b ?c ?d ?e] =>
        replace (merge_loop u a b c d e) with (h', m') in Hu by (symmetry; exact El) end.
      exact Hu.
  - vm_compute. eexists. split; reflexivity.
Qed.

Lemma merge_returns_into_record_witness :
  let r := [("CALL", "W1AW"); ("BAND", "20M"); ("MODE", "CW");
            ("QSO_DATE", "20230101"); ("TIME_ON", "1200")] in
  match_ 900 (app r [("NOTES", "x")]) r = Some true /\
  exists h' modified,
    merge 900 [app r [("NOTES", "x")]; r] 0 1 true = Some (h', (modified, 1)).
Proof.
  intros r. split; [reflexivity|].
  destruct (proj1 merge_returns_into_record 900%Z [app r [("NOTES", "x")]; r] 0 1 true eq_refl)
    as [h' [m [H _]]].
  exists h', m. exact H.
Defined.

Lemma read_alloc_new : forall h, read (app h [[]]) (List.length h) = [].
Proof.
  intros h. unfold read. rewrite app_nth2 by lia. rewrite Nat.sub_diag. reflexivity.
Qed.

(** C7: [match] and [merge] do raise on some pairs of viable records.
    Both records below hold all five viability fields, with the same
    [CALL], [BAND] and [MODE]; the second has [TIME_ON] present but
    empty, so [timeMatch] evaluates [int(t2[0:2])] = [int('')], which
    raises [ValueError]: [match] and [merge] raise it instead of
    returning a negative result. *)
Lemma match_empty_time_raises_counterexample :
  let r1 := [("CALL", "W1AW"); ("BAND", "20M"); ("MODE", "CW");
             ("QSO_DATE", "20230101"); ("TIME_ON", "1200")] in
  let r2 := [("CALL", "W1AW"); ("BAND", "20M"); ("MODE", "CW");
             ("QSO_DATE", "20230101"); ("TIME_ON", "")] in
  minimumQso r1 = true /\ minimumQso r2 = true /\
  match_ 900 r1 r2 = None /\ merge 900 [r1; r2] 0 1 true = None.
Proof. vm_compute. repeat split. Qed.

(** C7 (as the code behaves): a record missing a viability field makes
    [match] return [False] and [merge] return [(False, {})], a fresh
    empty dict; [match] raises exactly when both records are viable,
    their [CALL], [BAND] and mode match, and [timeMatch] raises, which
    happens exactly when the date/time of one
    of the records cannot be converted ([int] or [datetime] raising on
    an empty or malformed [QSO_DATE] or [TIME_ON]); [merge] raises
    exactly when [match] does. *)
Theorem match_merge_errors_only_from_datetime :
  (forall ms r1 r2, minimumQso r1 = false \/ minimumQso r2 = false ->
     match_ ms r1 r2 = Some false) /\
  (forall ms h pf pi update,
     minimumQso (read h pf) = false \/ minimumQso (read h pi) = false ->
     merge ms h pf pi update = Some (app h [[]], (false, List.length h)) /\
     read (app h [[]]) (List.length h) = []) /\
  (forall ms r1 r2, match_ ms r1 r2 = None <->
     minimumQso r1 = true /\ minimumQso r2 = true /\
     String.eqb (upper (rec_field r1 "CALL")) (upper (rec_field r2 "CALL")) = true /\
     String.eqb (upper (rec_field r1 "BAND")) (upper (rec_field r2 "BAND")) = true /\
     modeMatch r1 r2 = true /\ timeMatch ms r1 r2 = None) /\
  (forall ms r1 r2, timeMatch ms r1 r2 = None <->
     record_datetime (rec_field r1 "QSO_DATE") (rec_field r1 "TIME_ON") = None \/
     record_datetime (rec_field r2 "QSO_DATE") (rec_field r2 "TIME_ON") = None) /\
  (forall ms h pf pi update,
     merge ms h pf pi update = None <-> match_ ms (read h pf) (read h pi) = None).
Proof.
  assert (P1 : forall ms r1 r2, minimumQso r1 = false \/ minimumQso r2 = false ->
                 match_ ms r1 r2 = Some false).
  { intros ms r1 r2 H. unfold match_.
    destruct (minimumQso r1), (minimumQso r2); try reflexivity.
    destruct H as [H|H]; discriminate H. }
  assert (P3 : forall ms r1 r2, match_ ms r1 r2 = None <->
     minimumQso r1 = true /\ minimumQso r2 = true /\
     String.eqb (upper (rec_field r1 "CALL")) (upper (rec_field r2 "CALL")) = true /\
     String.eqb (upper (rec_field r1 "BAND")) (upper (rec_field r2 "BAND")) = true /\
     modeMatch r1 r2 = true /\ timeMatch ms r1 r2 = None).
  { intros ms r1 r2. unfold match_. split.
    - intros H.
      destruct (minimumQso r1), (minimumQso r2); cbn [negb] in H; try discriminate H.
      destruct (String.eqb (upper (rec_field r1 "CALL")) (upper (rec_field r2 "CALL"))),
               (String.eqb (upper (rec_field r1 "BAND")) (upper (rec_field r2 "BAND"))),
               (modeMatch r1 r2);
        cbn [andb] in H; try discriminate H.
      repeat split; first [reflexivity | assumption].
    - intros [-> [-> [-> [-> [-> H]]]]]. exact H. }
  split; [exact P1|]. split; [|split; [exact P3|split]].
  - intros ms h pf pi update H. split; [|apply read_alloc_new].
    unfold merge, alloc. rewrite !read_alloc_empty.
    destruct (minimumQso (read h pf)), (minimumQso (read h pi)); try reflexivity.
    destruct H as [H|H]; discriminate H.
  - intros ms r1 r2. unfold timeMatch. cbv zeta.
    destruct (record_datetime (rec_field r1 "QSO_DATE") (rec_field r1 "TIME_ON")),
             (record_datetime (rec_field r2 "QSO_DATE") (rec_field r2 "TIME_ON"));
      cbn [obind]; split; intros H; try discriminate H; auto;
      destruct H as [H|H]; discriminate H.
  - intros ms h pf pi update. unfold merge, alloc. rewrite !read_alloc_empty.
    split; intros H.
    + destruct (minimumQso (read h pf)), (minimumQso (read h pi)); cbn [negb] in H;
        try discriminate H.
      destruct (match_ ms (read h pf) (read h pi)) as [[]|]; auto; try discriminate H.
      destruct (merge_loop _ _ _ _ _ _); discriminate H.
    + destruct (proj1 (P3 _ _ _) H) as [H1 [H2 _]]. rewrite H1, H2, H. reflexivity.
Qed.

Lemma match_merge_errors_only_from_datetime_witness :
  let r := [("CALL", "W1AW"); ("BAND", "20M"); ("MODE", "CW"); ("QSO_DATE", "20230101")] in
  minimumQso r = false /\ match_ 900 r r = Some false.
Proof.
  intros r. split; [reflexivity|].
  apply (proj1 match_merge_errors_only_from_datetime 900%Z r r). left. reflexivity.
Defined.

(* ================================================================== *)
(** * Further properties of the code *)

(* ------------------------------------------------------------------ *)
(** * Extra properties *)

Lemma digits_value_uint : forall u acc,
  digits_value_acc (Z.of_nat acc) (NilEmpty.string_of_uint u) = Z.of_nat (Nat.of_uint_acc u acc).
Proof.
  induction u; intros acc; simpl NilEmpty.string_of_uint; simpl Nat.of_uint_acc;
    rewrite ?Nat.tail_mul_spec; try reflexivity;
    cbn [digits_value_acc]; rewrite <- IHu; f_equal;
    match goal with |- context [char_code ?c - 48] =>
      let v := eval vm_compute in (char_code c - 48) in change (char_code c - 48) with v end;
    lia.
Qed.

Lemma digits_value_str_of_nat : forall n, digits_value (str_of_nat n) = Z.of_nat n.
Proof.
  intros n. unfold digits_value, str_of_nat. change 0%Z with (Z.of_nat 0).
  rewrite digits_value_uint. f_equal. apply Unsigned.of_to.
Qed.

Lemma str_of_nat_digits : forall n, all_chars is_digit (str_of_nat n) = true.
Proof. intros n. unfold str_of_nat. induction (Nat.to_uint n); simpl; auto. Qed.

Lemma str_of_nat_nonempty : forall n, str_of_nat n <> EmptyString.
Proof.
  intros n H. unfold str_of_nat in H.
  assert (Hu : Nat.to_uint n = Decimal.Nil).
  { destruct (Nat.to_uint n); simpl in H; congruence. }
  pose proof (Unsigned.of_to n) as Ho. rewrite Hu in Ho. simpl in Ho. subst n.
  discriminate Hu.
Qed.

Lemma string_app_nil_r : forall s, s ++ EmptyString = s.
Proof. induction s; simpl; congruence. Qed.

Lemma span_app_all : forall p a b,
  all_chars p a = true -> span p (a ++ b) = (a ++ fst (span p b), snd (span p b)).
Proof.
  intros p a b; induction a as [|c a IH]; intros H; simpl in *.
  - destruct (span p b); reflexivity.
  - apply andb_prop in H. destruct H as [Hc Ha]. rewrite Hc, IH by auto. reflexivity.
Qed.

Lemma span_app_stop : forall p a c b,
  all_chars p a = true -> p c = false -> span p (a ++ String c b) = (a, String c b).
Proof.
  intros p a c b Ha Hc. rewrite span_app_all by auto. simpl. rewrite Hc. simpl.
  rewrite string_app_nil_r. reflexivity.
Qed.

Lemma match_specifier_at_field : forall k ds Y,
  k <> EmptyString -> all_chars is_word k = true ->
  ds <> EmptyString -> all_chars is_digit ds = true ->
  match_specifier_at (String "<" (k ++ String ":" (ds ++ String ">" Y))) =
  Some {| sm_tag := k; sm_len := ds; sm_value := fst (span not_lt Y);
          sm_off4 := 1 + String.length k + 1 + String.length ds + 0 + 1 |}.
Proof.
  intros k ds Y Hk Hw Hd Hdg. unfold match_specifier_at. lazy beta iota.
  rewrite (span_app_stop is_word k ":"%char) by (auto; reflexivity).
  destruct k as [|k0 k']; [congruence|]. lazy beta iota.
  rewrite (span_app_stop is_digit ds ">"%char) by (auto; reflexivity).
  destruct ds as [|d0 ds']; [congruence|].
  destruct Y as [|t [|c2 r4]]; reflexivity.
Qed.

Lemma match_specifier_not_lt : forall c x,
  not_lt c = true -> match_specifier_at (String c x) = None.
Proof.
  intros c x H. unfold not_lt in H. unfold match_specifier_at.
  destruct (Ascii.eqb c "<"%char); [discriminate H|reflexivity].
Qed.

Lemma search_specifier_skip : forall p s i,
  all_chars not_lt p = true ->
  search_specifier_from i (p ++ s) = search_specifier_from (i + String.length p) s.
Proof.
  induction p as [|c p IH]; intros s i H.
  - simpl. rewrite Nat.add_0_r. reflexivity.
  - cbn [all_chars] in H. apply andb_prop in H. destruct H as [Hc Hp].
    change (String c p ++ s) with (String c (p ++ s)). cbn [String.length].
    rewrite search_specifier_from_cons, match_specifier_not_lt by auto.
    rewrite IH by auto. f_equal. lia.
Qed.

Lemma rfield_app : forall sep k v u,
  rfield sep (k, v) ++ u =
  String "<" (k ++ String ":" (str_of_nat (String.length v) ++ String ">" (v ++ String sep u))).
Proof.
  intros sep k v u. unfold rfield. cbn [fst snd].
  repeat (rewrite <- ?string_app_assoc; simpl). reflexivity.
Qed.

Lemma string_length_app : forall a b,
  String.length (a ++ b) = String.length a + String.length b.
Proof. induction a; simpl; auto. Qed.

Lemma substring_app_prefix : forall a b, substring 0 (String.length a) (a ++ b) = a.
Proof.
  induction a as [|c a IH]; intros b; simpl; [destruct b; reflexivity|rewrite IH; reflexivity].
Qed.

Lemma drop_field : forall k ds v w,
  drop (1 + String.length k + 1 + String.length ds + 0 + 1 + String.length v)
       (String "<" (k ++ String ":" (ds ++ String ">" (v ++ w)))) = w.
Proof.
  intros k ds v w.
  replace (1 + String.length k + 1 + String.length ds + 0 + 1 + String.length v)
    with (S (String.length k + S (String.length ds + S (String.length v + 0)))) by lia.
  cbn [drop]. rewrite drop_app_add. cbn [drop]. rewrite drop_app_add. cbn [drop].
  rewrite drop_app_add. reflexivity.
Qed.

Lemma scan_field_step : forall sep p k v u,
  not_lt sep = true -> all_chars not_lt p = true -> field_ok (k, v) ->
  fst (span not_lt u) = EmptyString ->
  exists m,
    search_specifier (p ++ rfield sep (k, v) ++ u) = Some (String.length p, m) /\
    scan_step (String.length p) m (p ++ rfield sep (k, v) ++ u) = (k, v, String sep u).
Proof.
  intros sep p k v u Hsep Hp [Hk [Hw [Hu Hv]]] Hspan. cbn [fst snd] in *.
  rewrite rfield_app.
  eexists. split.
  - unfold search_specifier. rewrite search_specifier_skip by auto. simpl (0 + _).
    rewrite search_specifier_from_cons, match_specifier_at_field; auto.
    + apply str_of_nat_nonempty.
    + apply str_of_nat_digits.
  - unfold scan_step. cbn [sm_tag sm_value sm_off4].
    assert (Hval : fst (span not_lt (v ++ String sep u)) = v ++ String sep EmptyString).
    { rewrite span_app_all by auto. simpl. rewrite Hsep. destruct (span not_lt u) as [x y].
      simpl in *. subst x. reflexivity. }
    rewrite Hval, Hu.
    assert (Hcl : clamped_len {| sm_tag := k; sm_len := str_of_nat (String.length v);
                                 sm_value := v ++ String sep EmptyString;
                                 sm_off4 := 1 + String.length k + 1
                                   + String.length (str_of_nat (String.length v)) + 0 + 1 |}
                  = String.length v).
    { unfold clamped_len. cbn [sm_len sm_value]. rewrite digits_value_str_of_nat.
      rewrite string_length_app. simpl String.length.
      destruct (Z.ltb_spec (Z.of_nat (String.length v + 1)) (Z.of_nat (String.length v)));
        [lia|]. lia. }
    rewrite Hcl, substring_app_prefix.
    rewrite <- Nat.add_assoc, drop_app_add. rewrite drop_field. reflexivity.
Qed.

Lemma concat_empty_cons : forall x l,
  String.concat EmptyString (x :: l) = x ++ String.concat EmptyString l.
Proof.
  intros x [|y l]; simpl; [symmetry; apply string_app_nil_r|reflexivity].
Qed.

Lemma scan_fields_rendered : forall sep t fs fuel qso hdr p,
  not_lt sep = true -> all_chars not_lt p = true -> Forall field_ok fs ->
  fst (span not_lt t) = EmptyString -> (forall i, search_specifier_from i t = None) ->
  List.length fs < fuel ->
  scan_fields fuel qso hdr (p ++ String.concat EmptyString (map (rfield sep) fs) ++ t) =
  (fold_left (fun q kv => dict_set q (fst kv) (snd kv)) fs qso,
   fold_left (fun h kv => mirror_header (fst kv) (snd kv) h) fs hdr,
   match fs with [] => p ++ t | _ => String sep t end).
Proof.
  intros sep t fs. induction fs as [|[k v] fs IH]; intros fuel qso hdr p Hsep Hp Hfs Hts Ht Hf.
  - destruct fuel as [|fuel]; [simpl in Hf; lia|]. cbn [scan_fields map String.concat].
    unfold search_specifier. rewrite search_specifier_skip by auto. rewrite Ht. reflexivity.
  - destruct fuel as [|fuel]; [simpl in Hf; lia|]. inversion Hfs as [|? ? Hkv Hfs']; subst.
    cbn [map]. rewrite concat_empty_cons, <- string_app_assoc.
    destruct (scan_field_step sep p k v (String.concat EmptyString (map (rfield sep) fs) ++ t)
                Hsep Hp Hkv) as [m [Hs Hst]].
    { destruct fs as [|kv' fs]; [exact Hts|].
      cbn [map]. rewrite concat_empty_cons, <- string_app_assoc. destruct kv'.
      rewrite rfield_app. reflexivity. }
    cbn [scan_fields]. rewrite Hs, Hst.
    change (String sep (String.concat EmptyString (map (rfield sep) fs) ++ t))
      with (String sep EmptyString ++ String.concat EmptyString (map (rfield sep) fs) ++ t).
    rewrite IH by first [assumption | simpl; rewrite Hsep; reflexivity | simpl in Hf; lia].
    destruct fs; reflexivity.
Qed.

Lemma rendered_length : forall sep fs,
  List.length fs <= String.length (String.concat EmptyString (map (rfield sep) fs)).
Proof.
  intros sep fs. induction fs as [|[k v] fs IH]; [simpl; lia|].
  cbn [map]. rewrite concat_empty_cons, string_length_app.
  assert (1 <= String.length (rfield sep (k, v))) by (unfold rfield; simpl; lia).
  change (List.length ((k, v) :: fs)) with (S (List.length fs)). lia.
Qed.

Lemma get_adif_rendered : forall b,
  get_adif b =
  String.concat EmptyString
    (map (rfield " "%char) (map (fun k => (k, dict_value (QSO b) k)) (sort_strings (dict_keys (QSO b)))))
  ++ "<EOR>".
Proof.
  intros b. unfold get_adif. rewrite fold_append_concat, map_map. reflexivity.
Qed.

Lemma get_header_rendered : forall b,
  get_header b =
  String.concat EmptyString
    (map (rfield (ascii_of_nat 10))
         (map (fun k => (k, dict_value (HEADER b) k)) (sort_strings (dict_keys (HEADER b))))).
Proof.
  intros b. unfold get_header. rewrite fold_append_concat, map_map. reflexivity.
Qed.

Lemma dict_get_In : forall d k v, dict_get d k = Some v -> In (k, v) d.
Proof.
  induction d as [|[k' v'] d IH]; intros k v H; simpl in H; [discriminate|].
  destruct (String.eqb_spec k k') as [->|]; [injection H as <-; left; auto|right; auto].
Qed.

Lemma dict_set_fresh : forall d k v, ~ In k (dict_keys d) -> dict_set d k v = app d [(k, v)].
Proof.
  induction d as [|[k' v'] d IH]; intros k v H; simpl; auto.
  destruct (String.eqb_spec k k') as [->|Hne]; [exfalso; apply H; left; auto|].
  rewrite IH; auto. intros Hi. apply H. right. auto.
Qed.

Lemma fold_dict_set_fresh : forall fs q,
  NoDup (map fst fs) -> (forall k, In k (map fst fs) -> ~ In k (dict_keys q)) ->
  fold_left (fun q kv => dict_set q (fst kv) (snd kv)) fs q = app q fs.
Proof.
  induction fs as [|[k v] fs IH]; intros q Hnd Hq; simpl; [rewrite app_nil_r; auto|].
  inversion Hnd as [|? ? Hk Hnd']; subst.
  rewrite dict_set_fresh by (apply Hq; left; auto).
  rewrite IH; auto.
  - rewrite <- app_assoc. reflexivity.
  - intros k' Hk' Hin. unfold dict_keys in Hin. rewrite map_app in Hin.
    apply in_app_or in Hin. destruct Hin as [Hin|[<-|[]]].
    + apply (Hq k'); auto. right; auto.
    + contradiction.
Qed.

Lemma dict_get_pairs : forall f ks k,
  dict_get (map (fun k => (k, f k)) ks) k = if in_dec string_dec k ks then Some (f k) else None.
Proof.
  intros f ks k. induction ks as [|k' ks IH]; simpl; auto.
  destruct (String.eqb_spec k k') as [->|Hne].
  - destruct (string_dec k' k'); [|congruence]. reflexivity.
  - rewrite IH. destruct (string_dec k' k); [congruence|].
    destruct (in_dec string_dec k ks); reflexivity.
Qed.

(** The sorted pairs [get_adif] writes, for a record of well-formed fields. *)
Lemma sorted_pairs_ok : forall d,
  (forall kv, In kv d -> field_ok kv) ->
  Forall field_ok (map (fun k => (k, dict_value d k)) (sort_strings (dict_keys d))).
Proof.
  intros d Hd. apply Forall_forall. intros [k v] Hin.
  apply in_map_iff in Hin. destruct Hin as [k' [Heq Hk']]. injection Heq as <- <-.
  apply (Permutation_in _ (sort_strings_perm _)) in Hk'.
  destruct (dict_in_get _ _ Hk') as [v Hv]. unfold dict_value. rewrite Hv.
  apply Hd. apply dict_get_In. auto.
Qed.

Lemma sorted_pairs_lookup : forall d k,
  NoDup (dict_keys d) ->
  dict_get (map (fun k => (k, dict_value d k)) (sort_strings (dict_keys d))) k = dict_get d k.
Proof.
  intros d k Hnd. rewrite dict_get_pairs.
  destruct (in_dec string_dec k (sort_strings (dict_keys d))) as [Hi|Hi].
  - apply (Permutation_in _ (sort_strings_perm _)) in Hi.
    destruct (dict_in_get _ _ Hi) as [v Hv]. unfold dict_value. rewrite Hv. reflexivity.
  - symmetry. apply dict_get_none. intros Hk. apply Hi.
    apply (Permutation_in _ (Permutation_sym (sort_strings_perm _))). auto.
Qed.

Lemma sorted_pairs_nodup : forall d,
  NoDup (dict_keys d) ->
  NoDup (map fst (map (fun k => (k, dict_value d k)) (sort_strings (dict_keys d)))).
Proof.
  intros d Hnd. rewrite map_map. simpl. rewrite map_id.
  apply (Permutation_NoDup (Permutation_sym (sort_strings_perm _))). auto.
Qed.

Lemma upper_char_not_lt : forall c, not_lt c = true -> not_lt (upper_char c) = true.
Proof.
  intros c. destruct c as [[] [] [] [] [] [] [] []]; vm_compute; auto.
Qed.

Lemma word_upper_not_gt : forall c, is_word c = true -> Ascii.eqb ">" (upper_char c) = false.
Proof.
  intros c. destruct c as [[] [] [] [] [] [] [] []]; vm_compute; auto.
Qed.

Lemma word_safe : forall c, is_word c = true -> not_lt c && no_crlf c = true.
Proof.
  intros c. destruct c as [[] [] [] [] [] [] [] []]; vm_compute; auto.
Qed.

Lemma digit_safe : forall c, is_digit c = true -> not_lt c && no_crlf c = true.
Proof.
  intros c. destruct c as [[] [] [] [] [] [] [] []]; vm_compute; auto.
Qed.

Lemma all_chars_app : forall p a b, all_chars p (a ++ b) = all_chars p a && all_chars p b.
Proof.
  intros p a b. induction a as [|c a IH]; simpl; auto. rewrite IH, andb_assoc. reflexivity.
Qed.

Lemma all_chars_impl : forall (p q : ascii -> bool) s,
  (forall c, p c = true -> q c = true) -> all_chars p s = true -> all_chars q s = true.
Proof.
  intros p q s H. induction s as [|c s IH]; simpl; auto.
  intros Hs. apply andb_prop in Hs. destruct Hs as [Hc Hs]. rewrite H, IH; auto.
Qed.

Lemma search_literal_from_cons : forall i p c s,
  search_literal_from i p (String c s) =
  if prefix_of p (upper (String c s)) then Some (i + String.length p)
  else search_literal_from (S i) p s.
Proof. reflexivity. Qed.

Lemma search_literal_skip : forall q x y i,
  all_chars not_lt x = true ->
  search_literal_from i (String "<" q) (x ++ y)
  = search_literal_from (i + String.length x) (String "<" q) y.
Proof.
  intros q x y. induction x as [|c x IH]; intros i H.
  - simpl. rewrite Nat.add_0_r. reflexivity.
  - cbn [all_chars] in H. apply andb_prop in H. destruct H as [Hc Hx].
    change (String c x ++ y) with (String c (x ++ y)).
    rewrite search_literal_from_cons. cbn [upper prefix_of].
    pose proof (upper_char_not_lt c Hc) as Hu. unfold not_lt in Hu.
    rewrite Ascii.eqb_sym in Hu. destruct (Ascii.eqb "<" (upper_char c)); [discriminate Hu|].
    cbn [andb]. rewrite IH by auto. cbn [String.length]. f_equal. lia.
Qed.

Lemma search_literal_not_lt : forall q x i,
  all_chars not_lt x = true -> search_literal_from i (String "<" q) x = None.
Proof.
  intros q x i H. rewrite <- (string_app_nil_r x), search_literal_skip by auto. reflexivity.
Qed.

Lemma eoh_at_field : forall k w,
  all_chars is_word k = true -> prefix_of "<EOH>" (upper (String "<" (k ++ String ":" w))) = false.
Proof.
  intros k w Hk.
  destruct k as [|c1 [|c2 [|c3 [|c4 k]]]]; try reflexivity;
    cbn [all_chars] in Hk; rewrite ?andb_true_r in Hk; repeat (apply andb_prop in Hk as [? Hk]);
    cbn [append upper prefix_of]; try (rewrite ?andb_false_r; reflexivity).
  - cbn [all_chars] in *. repeat match goal with H : _ && _ = true |- _ => apply andb_prop in H as [? ?] end.
    rewrite word_upper_not_gt by auto. rewrite !andb_false_r. reflexivity.
Qed.

Lemma rfield_body_safe : forall sep k v,
  field_ok (k, v) -> not_lt sep = true ->
  all_chars not_lt (k ++ String ":" (str_of_nat (String.length v) ++ String ">" (v ++ String sep EmptyString))) = true.
Proof.
  intros sep k v [_ [Hw [_ Hv]]] Hsep. cbn [fst snd] in *.
  assert (Hk : all_chars not_lt k = true).
  { apply (all_chars_impl is_word); auto.
    intros c Hc; apply word_safe in Hc; apply andb_prop in Hc; tauto. }
  assert (Hd : all_chars not_lt (str_of_nat (String.length v)) = true).
  { apply (all_chars_impl is_digit); auto using str_of_nat_digits.
    intros c Hc; apply digit_safe in Hc; apply andb_prop in Hc; tauto. }
  repeat (rewrite all_chars_app || (progress (cbn [all_chars]))).
  rewrite Hk, Hd, Hv, Hsep. reflexivity.
Qed.

Lemma search_eoh_rendered : forall sep fs t i,
  not_lt sep = true -> Forall field_ok fs -> (forall j, search_literal_from j "<EOH>" t = None) ->
  search_literal_from i "<EOH>" (String.concat EmptyString (map (rfield sep) fs) ++ t) = None.
Proof.
  intros sep fs t. induction fs as [|[k v] fs IH]; intros i Hsep Hfs Ht; [apply Ht|].
  inversion Hfs as [|? ? Hkv Hfs']; subst. pose proof Hkv as [_ [Hw _]]. cbn [fst] in Hw.
  cbn [map]. rewrite concat_empty_cons, <- string_app_assoc, rfield_app.
  rewrite search_literal_from_cons, eoh_at_field by auto.
  pose proof (rfield_body_safe sep k v Hkv Hsep) as Hb.
  replace (k ++ String ":" (str_of_nat (String.length v) ++ String ">"
             (v ++ String sep (String.concat EmptyString (map (rfield sep) fs) ++ t))))
    with ((k ++ String ":" (str_of_nat (String.length v) ++ String ">" (v ++ String sep EmptyString)))
          ++ (String.concat EmptyString (map (rfield sep) fs) ++ t))
    by (repeat (first [rewrite <- string_app_assoc | progress (cbn [append])]); reflexivity).
  rewrite search_literal_skip by auto. apply IH; auto.
Qed.

Lemma search_literal_some_index : forall p s i j,
  search_literal_from i p s <> None -> search_literal_from j p s <> None.
Proof.
  intros p s i j H Hj. apply H. eapply search_literal_index_none; eauto.
Qed.

Lemma search_literal_app_some : forall p x y i j,
  search_literal_from j p y <> None -> search_literal_from i p (x ++ y) <> None.
Proof.
  intros p x. induction x as [|c x IH]; intros y i j H.
  - simpl. eapply search_literal_some_index; eauto.
  - change (String c x ++ y) with (String c (x ++ y)). rewrite search_literal_from_cons.
    destruct (prefix_of p _); [discriminate|]. eapply IH; eauto.
Qed.

Lemma replace_char_app : forall o n a b,
  replace_char o n (a ++ b) = replace_char o n a ++ replace_char o n b.
Proof. intros o n a b. induction a as [|c a IH]; simpl; congruence. Qed.

Lemma replace_char_id : forall o n s,
  all_chars (fun c => negb (Ascii.eqb c o)) s = true -> replace_char o n s = s.
Proof.
  intros o n s. induction s as [|c s IH]; simpl; auto.
  intros H. apply andb_prop in H. destruct H as [Hc Hs].
  destruct (Ascii.eqb c o); [discriminate Hc|]. rewrite IH; auto.
Qed.

Lemma flatten_line_clean : forall s,
  all_chars no_crlf s = true -> flatten_line s = s.
Proof.
  intros s H. unfold flatten_line, make_utf8.
  assert (H10 : all_chars (fun c => negb (Ascii.eqb c (ascii_of_nat 10))) s = true).
  { eapply all_chars_impl; [|exact H]. intros c Hc. unfold no_crlf in Hc.
    apply andb_prop in Hc. tauto. }
  assert (H13 : all_chars (fun c => negb (Ascii.eqb c (ascii_of_nat 13))) s = true).
  { eapply all_chars_impl; [|exact H]. intros c Hc. unfold no_crlf in Hc.
    apply andb_prop in Hc. tauto. }
  rewrite (replace_char_id _ _ s H10). apply replace_char_id. exact H13.
Qed.

(** [parse(..., True)] starts from an empty record and an empty pending
    line, whatever the pending line was. *)
Lemma parse_new_with_line : forall a x r, parse (with_line a x) r true = parse a r true.
Proof. reflexivity. Qed.

Lemma parse_new_line : forall a r, line (fst (parse a r true)) = EmptyString.
Proof.
  intros a r. unfold parse. cbn [clear QSO HEADER line EOH_flag].
  destruct (scan _ _ r) as [[q h] rest]. destruct (search_eoh rest); reflexivity.
Qed.

Lemma parse_eor_in_record : forall a r n,
  snd (parse a r n) = true -> search_eor r <> None.
Proof.
  intros a r n H. unfold parse, scan in H.
  destruct (scan_fields_suffix (S (String.length r))
              (QSO (if n then clear {| QSO := QSO a; HEADER := HEADER a; EOH_flag := false; line := line a |}
                    else {| QSO := QSO a; HEADER := HEADER a; EOH_flag := false; line := line a |}))
              (HEADER (if n then clear {| QSO := QSO a; HEADER := HEADER a; EOH_flag := false; line := line a |}
                    else {| QSO := QSO a; HEADER := HEADER a; EOH_flag := false; line := line a |}))
              r) as [pre Hpre].
  destruct (scan_fields _ _ _ r) as [[q h] rest] eqn:E. cbn [snd] in Hpre.
  unfold search_eor. rewrite Hpre. apply (search_literal_app_some _ _ _ _ 0).
  destruct (search_eoh rest); cbn [snd] in H; destruct (search_eor rest) eqn:Er; try discriminate H;
    unfold search_eor in Er; congruence.
Qed.
Lemma eor_tail_no_specifier : forall s i,
  all_chars not_lt s = true -> search_specifier_from i ("<EOR>" ++ s) = None.
Proof.
  intros s i Hs. change ("<EOR>" ++ s) with (String "<" ("EOR>" ++ s)).
  rewrite search_specifier_from_cons.
  replace (match_specifier_at (String "<" ("EOR>" ++ s))) with (@None spec_match) by reflexivity.
  rewrite <- (string_app_nil_r ("EOR>" ++ s)), search_specifier_skip; [reflexivity|].
  rewrite all_chars_app, Hs. reflexivity.
Qed.

Lemma eor_tail_no_eoh : forall s i,
  all_chars not_lt s = true -> search_literal_from i "<EOH>" ("<EOR>" ++ s) = None.
Proof.
  intros s i Hs. change ("<EOR>" ++ s) with (String "<" ("EOR>" ++ s)).
  rewrite search_literal_from_cons.
  replace (prefix_of "<EOH>" (upper (String "<" ("EOR>" ++ s)))) with false by reflexivity.
  apply search_literal_not_lt. rewrite all_chars_app, Hs. reflexivity.
Qed.

Lemma parse_get_adif_app_eq : forall a b s,
  NoDup (dict_keys (QSO b)) -> (forall kv, In kv (QSO b) -> field_ok kv) ->
  all_chars not_lt s = true ->
  parse a (get_adif b ++ s) true =
  ({| QSO := map (fun k => (k, dict_value (QSO b) k)) (sort_strings (dict_keys (QSO b)));
      HEADER := fold_left (fun h kv => mirror_header (fst kv) (snd kv) h)
                  (map (fun k => (k, dict_value (QSO b) k)) (sort_strings (dict_keys (QSO b))))
                  (HEADER a);
      EOH_flag := false; line := EmptyString |}, true).
Proof.
  intros a b s Hnd Hok Hs.
  pose proof (sorted_pairs_ok _ Hok) as Hfs. pose proof (sorted_pairs_nodup _ Hnd) as Hnd'.
  revert Hfs Hnd'.
  set (fs := map (fun k => (k, dict_value (QSO b) k)) (sort_strings (dict_keys (QSO b)))).
  intros Hfs Hnd'.
  unfold parse, scan. rewrite get_adif_rendered, <- string_app_assoc. fold fs.
  cbn [clear QSO HEADER EOH_flag line].
  rewrite (scan_fields_rendered " "%char ("<EOR>" ++ s) fs _ [] (HEADER a) EmptyString);
    [| reflexivity | reflexivity | exact Hfs | reflexivity
     | intros; apply eor_tail_no_specifier; exact Hs |].
  - rewrite fold_dict_set_fresh by (auto; intros k _ []). cbn [app].
    unfold search_eoh, search_eor.
    destruct fs as [|kv fs'].
    + change (EmptyString ++ "<EOR>" ++ s) with ("<EOR>" ++ s).
      rewrite eor_tail_no_eoh by exact Hs. reflexivity.
    + rewrite search_literal_from_cons.
      replace (prefix_of "<EOH>" (upper (String " " ("<EOR>" ++ s)))) with false by reflexivity.
      rewrite eor_tail_no_eoh by exact Hs. reflexivity.
  - rewrite !string_length_app. pose proof (rendered_length " "%char fs). lia.
Qed.

Lemma parse_get_adif_eq : forall a b,
  NoDup (dict_keys (QSO b)) -> (forall kv, In kv (QSO b) -> field_ok kv) ->
  parse a (get_adif b) true =
  ({| QSO := map (fun k => (k, dict_value (QSO b) k)) (sort_strings (dict_keys (QSO b)));
      HEADER := fold_left (fun h kv => mirror_header (fst kv) (snd kv) h)
                  (map (fun k => (k, dict_value (QSO b) k)) (sort_strings (dict_keys (QSO b))))
                  (HEADER a);
      EOH_flag := false; line := EmptyString |}, true).
Proof.
  intros a b Hnd Hok. rewrite <- (string_app_nil_r (get_adif b)).
  apply parse_get_adif_app_eq; auto.
Qed.

(** X1: A record written by [get_adif] and read back by [parse(..., True)]:
    the fields come back with their values, in sorted key order, and
    [parse] reports the end of record. *)
Theorem parse_get_adif_roundtrip : forall a b,
  NoDup (dict_keys (QSO b)) -> (forall kv, In kv (QSO b) -> field_ok kv) ->
  snd (parse a (get_adif b) true) = true /\
  QSO (fst (parse a (get_adif b) true))
    = map (fun k => (k, dict_value (QSO b) k)) (sort_strings (dict_keys (QSO b))) /\
  (forall k, dict_get (QSO (fst (parse a (get_adif b) true))) k = dict_get (QSO b) k) /\
  eoh (fst (parse a (get_adif b) true)) = false.
Proof.
  intros a b Hnd Hok. rewrite (parse_get_adif_eq a b Hnd Hok). cbn [fst snd QSO eoh EOH_flag].
  split; [reflexivity|]. split; [reflexivity|]. split; [|reflexivity].
  intros k. apply sorted_pairs_lookup. auto.
Qed.

Lemma parse_get_adif_roundtrip_witness :
  let b := adif_init (Some [("CALL", "W1AW"); ("BAND", "20M"); ("NOTES", "a > b")]) in
  NoDup (dict_keys (QSO b)) /\ (forall kv, In kv (QSO b) -> field_ok kv) /\
  QSO (fst (parse (adif_init None) (get_adif b) true))
    = [("BAND", "20M"); ("CALL", "W1AW"); ("NOTES", "a > b")].
Proof.
  intros b.
  assert (Hnd : NoDup (dict_keys (QSO b))).
  { repeat constructor; simpl; intuition discriminate. }
  assert (Hok : forall kv, In kv (QSO b) -> field_ok kv).
  { intros kv Hkv. simpl in Hkv.
    repeat (destruct Hkv as [<-|Hkv]; [repeat split; try discriminate; reflexivity|]).
    contradiction. }
  split; [exact Hnd|]. split; [exact Hok|].
  destruct (parse_get_adif_roundtrip (adif_init None) b Hnd Hok) as [_ [H _]].
  rewrite H. reflexivity.
Defined.

(** X2: Header text written by [get_header] and read back by
    [parse(..., True)]: the header fields come back as the fields of the
    record, with their values, in sorted key order; [parse] reports no
    end of record, since the header text has no [<EOR>]. *)
Theorem parse_get_header_roundtrip : forall a b,
  NoDup (dict_keys (HEADER b)) -> (forall kv, In kv (HEADER b) -> field_ok kv) ->
  snd (parse a (get_header b) true) = false /\
  QSO (fst (parse a (get_header b) true))
    = map (fun k => (k, dict_value (HEADER b) k)) (sort_strings (dict_keys (HEADER b))) /\
  (forall k, dict_get (QSO (fst (parse a (get_header b) true))) k = dict_get (HEADER b) k) /\
  eoh (fst (parse a (get_header b) true)) = false.
Proof.
  intros a b Hnd Hok.
  pose proof (sorted_pairs_ok _ Hok) as Hfs. pose proof (sorted_pairs_nodup _ Hnd) as Hnd'.
  pose proof (sorted_pairs_lookup (HEADER b)) as Hlk.
  revert Hfs Hnd' Hlk.
  set (fs := map (fun k => (k, dict_value (HEADER b) k)) (sort_strings (dict_keys (HEADER b)))).
  intros Hfs Hnd' Hlk.
  unfold parse, scan. rewrite get_header_rendered. fold fs. cbn [clear QSO HEADER EOH_flag line].
  rewrite <- (string_app_nil_r (String.concat EmptyString (map (rfield (ascii_of_nat 10)) fs))).
  rewrite (scan_fields_rendered (ascii_of_nat 10) EmptyString fs _ [] (HEADER a) EmptyString);
    [| reflexivity | reflexivity | exact Hfs | reflexivity | intros; reflexivity |].
  - rewrite fold_dict_set_fresh by (auto; intros k _ []). cbn [app].
    destruct fs; (split; [reflexivity|]); (split; [reflexivity|]); (split; [|reflexivity]);
      intros k; apply Hlk; auto.
  - rewrite string_length_app. pose proof (rendered_length (ascii_of_nat 10) fs). simpl. lia.
Qed.

Lemma parse_get_header_roundtrip_witness :
  let b := {| QSO := []; HEADER := [("PROGRAMID", "Log4OM"); ("ADIF_VER", "3.1.0")];
              EOH_flag := true; line := EmptyString |} in
  NoDup (dict_keys (HEADER b)) /\ (forall kv, In kv (HEADER b) -> field_ok kv) /\
  QSO (fst (parse (adif_init None) (get_header b) true))
    = [("ADIF_VER", "3.1.0"); ("PROGRAMID", "Log4OM")].
Proof.
  intros b.
  assert (Hnd : NoDup (dict_keys (HEADER b))).
  { repeat constructor; simpl; intuition discriminate. }
  assert (Hok : forall kv, In kv (HEADER b) -> field_ok kv).
  { intros kv Hkv. simpl in Hkv.
    repeat (destruct Hkv as [<-|Hkv]; [repeat split; try discriminate; reflexivity|]).
    contradiction. }
  split; [exact Hnd|]. split; [exact Hok|].
  destruct (parse_get_header_roundtrip (adif_init None) b Hnd Hok) as [_ [H _]].
  rewrite H. reflexivity.
Defined.

Lemma with_line_eta : forall a, with_line a (line a) = a.
Proof. intros [q h e l]. reflexivity. Qed.

Lemma drop_empty : forall n, drop n EmptyString = EmptyString.
Proof. intros [|n]; reflexivity. Qed.

Lemma next_record_single_line : forall a l rest,
  line a = EmptyString -> search_eoh (flatten_line l) = None ->
  snd (parse a (flatten_line l) true) = true ->
  next_record a (l :: rest) = (fst (parse a (flatten_line l) true), true, rest) /\
  line (fst (parse a (flatten_line l) true)) = EmptyString.
Proof.
  intros a l rest Hl Heoh Hp. split; [|apply parse_new_line].
  pose proof (parse_eor_in_record a (flatten_line l) true Hp) as Heor.
  unfold next_record.
  replace (search_eor (line a)) with (@None nat) by (rewrite Hl; reflexivity).
  cbn [next_record_loop].
  replace (line (with_line a (line a ++ flatten_line l))) with (flatten_line l)
    by (rewrite Hl; reflexivity).
  rewrite Heoh.
  replace (line (with_line a (line a ++ flatten_line l))) with (flatten_line l)
    by (rewrite Hl; reflexivity).
  destruct (search_eor (flatten_line l)) as [idx|] eqn:Er; [|contradiction].
  rewrite parse_new_with_line.
  pose proof (parse_new_line a (flatten_line l)) as Hline.
  destruct (parse a (flatten_line l) true) as [P e] eqn:Ep.
  cbn [fst snd] in *. subst e. destruct P as [q h e0 ln]. cbn [line] in *. subst ln.
  rewrite drop_empty.
  reflexivity.
Qed.

(** X3: [next_record] with no pending text reads exactly one line when that
    line holds a whole record (an [<EOR>] that [parse] accepts) and no
    [<EOH>]: the record is the one [parse(line, True)] builds, the other
    lines are left unread, and whatever followed the [<EOR>] on that line
    is not kept, since [parse(..., True)] clears the pending line before
    [next_record] slices it. *)
Theorem next_record_one_line : forall a l rest,
  line a = EmptyString -> search_eoh (flatten_line l) = None ->
  snd (parse a (flatten_line l) true) = true ->
  next_record a (l :: rest) = (fst (parse a (flatten_line l) true), true, rest) /\
  line (fst (parse a (flatten_line l) true)) = EmptyString.
Proof. exact next_record_single_line. Qed.

Lemma next_record_one_line_witness :
  let l := "<CALL:4>W1AW <EOR> 73" in
  next_record (adif_init None) [l; "<EOR>"]
    = (fst (parse (adif_init None) (flatten_line l) true), true, ["<EOR>"]) /\
  line (fst (parse (adif_init None) (flatten_line l) true)) = EmptyString.
Proof.
  intros l. apply (next_record_one_line (adif_init None) l ["<EOR>"]); reflexivity.
Defined.

Lemma sorted_pairs_forall : forall (P : string * string -> Prop) d,
  (forall kv, In kv d -> P kv) ->
  Forall P (map (fun k => (k, dict_value d k)) (sort_strings (dict_keys d))).
Proof.
  intros P d Hd. apply Forall_forall. intros [k v] Hin.
  apply in_map_iff in Hin. destruct Hin as [k' [Heq Hk']]. injection Heq as <- <-.
  apply (Permutation_in _ (sort_strings_perm _)) in Hk'.
  destruct (dict_in_get _ _ Hk') as [v Hv]. unfold dict_value. rewrite Hv.
  apply Hd. apply dict_get_In. auto.
Qed.

Lemma rendered_no_crlf : forall sep fs,
  no_crlf sep = true ->
  Forall (fun kv => field_ok kv /\ all_chars no_crlf (snd kv) = true) fs ->
  all_chars no_crlf (String.concat EmptyString (map (rfield sep) fs)) = true.
Proof.
  intros sep fs Hsep. induction fs as [|[k v] fs IH]; intros Hfs; [reflexivity|].
  inversion Hfs as [|? ? [[_ [Hw _]] Hv] Hfs']; subst. cbn [fst snd] in *.
  cbn [map]. rewrite concat_empty_cons, all_chars_app, IH by auto.
  assert (Hk : all_chars no_crlf k = true).
  { apply (all_chars_impl is_word); auto.
    intros c Hc; apply word_safe in Hc; apply andb_prop in Hc; tauto. }
  assert (Hd : all_chars no_crlf (str_of_nat (String.length v)) = true).
  { apply (all_chars_impl is_digit); auto using str_of_nat_digits.
    intros c Hc; apply digit_safe in Hc; apply andb_prop in Hc; tauto. }
  unfold rfield. cbn [fst snd].
  repeat (rewrite all_chars_app || (progress (cbn [all_chars]))).
  rewrite Hk, Hd, Hv, Hsep. reflexivity.
Qed.

Lemma flatten_line_app : forall x y, flatten_line (x ++ y) = flatten_line x ++ flatten_line y.
Proof. intros x y. unfold flatten_line, make_utf8. rewrite !replace_char_app. reflexivity. Qed.

Lemma flatten_get_adif_line : forall b,
  (forall kv, In kv (QSO b) -> field_ok kv /\ all_chars no_crlf (snd kv) = true) ->
  flatten_line (get_adif b ++ String (ascii_of_nat 10) EmptyString) = get_adif b ++ " ".
Proof.
  intros b Hb. rewrite flatten_line_app, flatten_line_clean; [reflexivity|].
  rewrite get_adif_rendered, all_chars_app, rendered_no_crlf; [reflexivity|reflexivity|].
  apply sorted_pairs_forall. exact Hb.
Qed.

Lemma search_eoh_get_adif : forall b s,
  (forall kv, In kv (QSO b) -> field_ok kv) -> all_chars not_lt s = true ->
  search_eoh (get_adif b ++ s) = None.
Proof.
  intros b s Hb Hs. unfold search_eoh. rewrite get_adif_rendered, <- string_app_assoc.
  apply search_eoh_rendered; [reflexivity| |].
  - apply sorted_pairs_ok. exact Hb.
  - intros j. apply eor_tail_no_eoh. exact Hs.
Qed.

Lemma next_record_get_adif_line : forall a b rest,
  line a = EmptyString ->
  NoDup (dict_keys (QSO b)) ->
  (forall kv, In kv (QSO b) -> field_ok kv /\ all_chars no_crlf (snd kv) = true) ->
  exists a',
    next_record a ((get_adif b ++ String (ascii_of_nat 10) EmptyString) :: rest) = (a', true, rest) /\
    QSO a' = map (fun k => (k, dict_value (QSO b) k)) (sort_strings (dict_keys (QSO b))) /\
    (forall k, dict_get (QSO a') k = dict_get (QSO b) k) /\
    line a' = EmptyString /\ eoh a' = false.
Proof.
  intros a b rest Hl Hnd Hb.
  assert (Hok : forall kv, In kv (QSO b) -> field_ok kv) by (intros kv Hkv; apply Hb; auto).
  pose proof (parse_get_adif_app_eq a b " " Hnd Hok eq_refl) as Hp.
  rewrite <- flatten_get_adif_line in Hp by exact Hb.
  destruct (next_record_single_line a (get_adif b ++ String (ascii_of_nat 10) EmptyString) rest Hl)
    as [Hn Hline].
  - rewrite flatten_get_adif_line by exact Hb. apply search_eoh_get_adif; auto.
  - rewrite Hp. reflexivity.
  - eexists. split; [exact Hn|]. rewrite Hp. cbn [fst QSO line eoh EOH_flag].
    split; [reflexivity|]. split; [|split; reflexivity].
    intros k. apply sorted_pairs_lookup. exact Hnd.
Qed.

(** X4: A record written by [get_adif] as one line of a file is read back by
    [next_record] from that line alone: [next_record] returns [True],
    leaves the following lines unread, and the record holds the written
    fields with their values, in sorted key order, with nothing pending. *)
Theorem next_record_get_adif_roundtrip : forall a b rest,
  line a = EmptyString ->
  NoDup (dict_keys (QSO b)) ->
  (forall kv, In kv (QSO b) -> field_ok kv /\ all_chars no_crlf (snd kv) = true) ->
  exists a',
    next_record a ((get_adif b ++ String (ascii_of_nat 10) EmptyString) :: rest) = (a', true, rest) /\
    QSO a' = map (fun k => (k, dict_value (QSO b) k)) (sort_strings (dict_keys (QSO b))) /\
    (forall k, dict_get (QSO a') k = dict_get (QSO b) k) /\
    line a' = EmptyString /\ eoh a' = false.
Proof. exact next_record_get_adif_line. Qed.

Lemma next_record_empty_file : forall a,
  line a = EmptyString -> next_record a [] = (a, false, []).
Proof.
  intros a Hl. unfold next_record. rewrite Hl.
  change (search_eor EmptyString) with (@None nat). cbn [next_record_loop]. rewrite Hl.
  reflexivity.
Qed.

(** X5: Iterating over a file whose lines are records written by [get_adif]
    (each with at least one field) yields those records in file order,
    each with its fields in sorted key order, then stops with
    [StopIteration] and the file closed. *)
Theorem iter_get_adif_file : forall bs a fuel,
  line a = EmptyString -> List.length bs < fuel ->
  (forall b, In b bs ->
     QSO b <> [] /\ NoDup (dict_keys (QSO b)) /\
     (forall kv, In kv (QSO b) -> field_ok kv /\ all_chars no_crlf (snd kv) = true)) ->
  exists a',
    for_qsos next_record_outcome fuel
      (mk_iter a (Some (map (fun b => get_adif b ++ String (ascii_of_nat 10) EmptyString) bs)))
    = (map (fun b => map (fun k => (k, dict_value (QSO b) k)) (sort_strings (dict_keys (QSO b)))) bs,
       mk_iter a' None).
Proof.
  induction bs as [|b bs IH]; intros a fuel Hl Hf Hbs.
  - destruct fuel as [|fuel]; [simpl in Hf; lia|]. exists a.
    cbn [for_qsos map]. unfold iter_next, next_qso. cbn [fileobj adifobj].
    unfold next_record_outcome. rewrite next_record_empty_file by exact Hl. reflexivity.
  - destruct fuel as [|fuel]; [simpl in Hf; lia|].
    destruct (Hbs b (or_introl eq_refl)) as [Hne [Hnd Hb]].
    destruct (next_record_get_adif_line a b
                (map (fun b => get_adif b ++ String (ascii_of_nat 10) EmptyString) bs) Hl Hnd Hb)
      as [a1 [Hn [Hq [_ [Hl1 _]]]]].
    destruct (IH a1 fuel Hl1) as [a' Hrec].
    { change (List.length (b :: bs)) with (S (List.length bs)) in Hf. lia. }
    { intros b' Hb'. apply Hbs. right. exact Hb'. }
    exists a'. cbn [for_qsos map]. unfold iter_next, next_qso. cbn [fileobj adifobj].
    unfold next_record_outcome. rewrite Hn. unfold get_record. rewrite Hq.
    assert (Hlen : Nat.ltb 0 (List.length (map (fun k => (k, dict_value (QSO b) k))
                                             (sort_strings (dict_keys (QSO b))))) = true).
    { apply Nat.ltb_lt. rewrite length_map, (Permutation_length (sort_strings_perm _)).
      unfold dict_keys. rewrite length_map. destruct (QSO b); [contradiction|simpl; lia]. }
    rewrite Hlen. fold next_record_outcome. rewrite Hrec. reflexivity.
Qed.


Lemma dict_get_del_same : forall d k,
  NoDup (dict_keys d) -> dict_get (dict_del d k) k = None.
Proof.
  induction d as [|[k' v'] d IH]; intros k H; simpl; auto.
  inversion H as [|? ? Hk Hd]; subst.
  destruct (String.eqb_spec k k') as [->|Hne].
  - apply dict_get_none. exact Hk.
  - simpl. destruct (String.eqb_spec k k'); [congruence|]. auto.
Qed.

Lemma dict_get_del_other : forall d k k',
  k' <> k -> dict_get (dict_del d k) k' = dict_get d k'.
Proof.
  induction d as [|[k0 v0] d IH]; intros k k' H; simpl; auto.
  destruct (String.eqb_spec k k0) as [->|Hne].
  - destruct (String.eqb_spec k' k0); [congruence|reflexivity].
  - simpl. destruct (String.eqb k' k0); auto.
Qed.

Lemma dict_mem_in : forall k d, dict_mem k d = true <-> In k (dict_keys d).
Proof. intros k d. apply existsb_eqb_in. Qed.

(** X9: [set_field] then [get_field]/[has_field]: a name that normalizes
    ([strip().upper()]) like the one set reads the new value back, every
    other name reads what it read before. *)
Theorem get_field_set_field : forall a f v g,
  get_field (set_field a f v) g =
    (if String.eqb (normalize g) (normalize f) then v else get_field a g) /\
  has_field (set_field a f v) f = true.
Proof.
  intros a f v g. split.
  - unfold get_field, set_field, with_QSO. cbn [QSO].
    destruct (String.eqb_spec (normalize g) (normalize f)) as [->|Hne].
    + rewrite dict_get_set_same. reflexivity.
    + rewrite dict_get_set_other by (intros He; apply Hne; congruence). reflexivity.
  - unfold has_field, get_field_names. apply existsb_eqb_in.
    unfold set_field, with_QSO. cbn [QSO]. apply dict_keys_set_new.
Qed.

(** X10: [del_field] on a record with distinct keys: the deleted name reads
    as missing ([get_field] gives [""], [has_field] gives [False]) and
    every name that normalizes differently reads as before; deleting a
    missing name changes nothing. *)
Theorem del_field_removes : forall a f,
  NoDup (dict_keys (QSO a)) ->
  get_field (del_field a f) f = EmptyString /\
  has_field (del_field a f) f = false /\
  (forall g, normalize g <> normalize f -> get_field (del_field a f) g = get_field a g) /\
  (has_field a f = false -> del_field a f = a).
Proof.
  intros a f H. unfold del_field, has_field, get_field_names.
  destruct (dict_mem (normalize f) (QSO a)) eqn:Em.
  - unfold get_field, with_QSO. cbn [QSO].
    split; [rewrite dict_get_del_same by exact H; reflexivity|].
    split; [|split].
    + destruct (existsb _ _) eqn:E; auto. apply existsb_eqb_in in E.
      exfalso. apply dict_get_none in E; auto. apply dict_get_del_same. exact H.
    + intros g Hg. rewrite dict_get_del_other by exact Hg. reflexivity.
    + unfold dict_mem in Em. intros E. rewrite E in Em. discriminate.
  - unfold dict_mem in Em. rewrite Em.
    split; [|split; [reflexivity|split; [reflexivity|reflexivity]]].
    unfold get_field. destruct (dict_get (QSO a) (normalize f)) eqn:Eg; auto.
    apply dict_get_in in Eg. apply existsb_eqb_in in Eg. congruence.
Qed.

Lemma modeMatch_sym : forall r1 r2, modeMatch r1 r2 = modeMatch r2 r1.
Proof.
  intros r1 r2. unfold modeMatch.
  set (m1 := upper (rec_field r1 "MODE")). set (m2 := upper (rec_field r2 "MODE")).
  set (s1 := upper (rec_field r1 "SUBMODE")). set (s2 := upper (rec_field r2 "SUBMODE")).
  rewrite (orb_comm (Nat.eqb (String.length m2) 0)), (String.eqb_sym m2 m1),
    (andb_comm (Nat.ltb 0 (String.length s2))), (String.eqb_sym s2 s1).
  destruct (_ || _); auto. destruct (String.eqb m1 m2); auto.
  destruct (String.eqb m1 s2), (String.eqb m2 s1); reflexivity.
Qed.

Lemma timeMatch_sym : forall ms r1 r2, timeMatch ms r1 r2 = timeMatch ms r2 r1.
Proof.
  intros ms r1 r2. unfold timeMatch.
  destruct (record_datetime (rec_field r1 "QSO_DATE") (rec_field r1 "TIME_ON")) as [d1|];
    destruct (record_datetime (rec_field r2 "QSO_DATE") (rec_field r2 "TIME_ON")) as [d2|];
    cbn [obind]; auto.
  rewrite !td_abs_dt_sub.
  replace (Z.abs (dt_seconds d2 - dt_seconds d1)) with (Z.abs (dt_seconds d1 - dt_seconds d2))
    by lia.
  reflexivity.
Qed.

(** X11: [match] does not depend on the order of its two records: it
    gives the same answer either way round, and it raises one way round
    exactly when it raises the other (the model does not tell exceptions
    apart: which [int()] call fails first, and so the message, may
    differ). *)
Theorem match_symmetric : forall ms r1 r2, match_ ms r1 r2 = match_ ms r2 r1.
Proof.
  intros ms r1 r2. unfold match_.
  destruct (minimumQso r1), (minimumQso r2); cbn [negb]; auto.
  rewrite (String.eqb_sym (upper (rec_field r2 "CALL"))),
    (String.eqb_sym (upper (rec_field r2 "BAND"))), modeMatch_sym, timeMatch_sym.
  reflexivity.
Qed.

Lemma td_abs_dt_sub_self : forall d, td_abs (dt_sub d d) = mk_td 0 0.
Proof.
  intros d. rewrite td_abs_dt_sub. replace (dt_seconds d - dt_seconds d)%Z with 0%Z by lia.
  reflexivity.
Qed.

(** X12: A record matches itself when [match] gets past its checks: it has
    the minimum fields, a non-empty [MODE], a date and time that form a
    valid [datetime], and [MaxSeconds] is not negative. *)
Theorem match_self : forall ms r,
  minimumQso r = true -> rec_field r "MODE" <> EmptyString ->
  record_datetime (rec_field r "QSO_DATE") (rec_field r "TIME_ON") <> None ->
  (0 <= ms)%Z ->
  match_ ms r r = Some true.
Proof.
  intros ms r Hmin Hmode Hdt Hms. unfold match_. rewrite Hmin. cbn [negb].
  rewrite !String.eqb_refl. cbn [andb].
  assert (Hm : modeMatch r r = true).
  { unfold modeMatch. rewrite String.eqb_refl.
    destruct (Nat.eqb_spec (String.length (upper (rec_field r "MODE"))) 0) as [H0|H0].
    - exfalso. apply Hmode. rewrite upper_length in H0.
      destruct (rec_field r "MODE"); [reflexivity|discriminate].
    - cbn [orb]. rewrite String.eqb_refl. destruct (_ && _); reflexivity. }
  rewrite Hm. unfold timeMatch.
  destruct (record_datetime _ _) as [d|]; [|contradiction]. cbn [obind].
  rewrite td_abs_dt_sub_self. cbn [td_days td_seconds]. rewrite Z.eqb_refl.
  apply Z.leb_le in Hms. rewrite Hms. reflexivity.
Qed.

Lemma normalize_qsl_keys : forall k, In k qsl_keys -> normalize k = k.
Proof.
  intros k Hk. cbn [qsl_keys In] in Hk.
  repeat (destruct Hk as [<-|Hk]; [reflexivity|]). contradiction.
Qed.

(** X13: [qsl_rcvd] looks at ten fields only ([QSL_RCVD] and the ClubLog,
    eQSL, LoTW and QRZ fields its helpers read): two records that agree
    on them get the same answer, whatever their other fields. *)
Theorem qsl_rcvd_reads_qsl_fields : forall q1 q2,
  (forall k, In k qsl_keys -> dict_get q1 k = dict_get q2 k) ->
  qsl_rcvd q1 = qsl_rcvd q2.
Proof.
  intros q1 q2 H.
  assert (G : forall k, In k qsl_keys ->
              get_field (adif_init (Some q1)) k = get_field (adif_init (Some q2)) k).
  { intros k Hk. unfold get_field. cbn [QSO adif_init].
    rewrite normalize_qsl_keys, H by exact Hk. reflexivity. }
  unfold qsl_rcvd, clublog_rcvd, eqsl_rcvd, lotw_qsl_rcvd, qrz_qsl_rcvd. cbv zeta.
  rewrite !G by (cbn [qsl_keys In]; tauto). reflexivity.
Qed.


Lemma hg_refl : forall a, hdr_grows a a.
Proof. intros a. split; auto. Qed.

Lemma hg_trans : forall a b c, hdr_grows a b -> hdr_grows b c -> hdr_grows a c.
Proof.
  intros a b c [H1 H2] [H3 H4]. split; auto.
  intros k Hk. destruct (H4 k Hk) as [Hb|Ht]; auto.
Qed.

Lemma hg_with_line : forall a b l, hdr_grows a b -> hdr_grows a (with_line b l).
Proof. intros a b l H. exact H. Qed.

Lemma dict_keys_set_cases : forall d k v x,
  In x (dict_keys (dict_set d k v)) <-> x = k \/ In x (dict_keys d).
Proof.
  intros d k v x. split; [apply dict_keys_set|].
  intros [->|H]; [apply dict_keys_set_new|apply dict_keys_set_keep; exact H].
Qed.

Lemma mirror_header_grows : forall t v h,
  (forall k, In k (dict_keys h) -> In k (dict_keys (mirror_header t v h))) /\
  (forall k, In k (dict_keys (mirror_header t v h)) -> In k (dict_keys h) \/ header_tag k).
Proof.
  intros t v h. unfold mirror_header, header_tag.
  repeat match goal with
  | |- context [if String.eqb t ?s then _ else _] =>
      let E := fresh "E" in destruct (String.eqb_spec t s) as [E|E]; cbv beta iota
  end;
  [..|destruct (startswith t "USERDEF") eqn:Eu; cbv beta iota];
  split; intros k Hk; rewrite ?dict_keys_set_cases in *; intuition congruence.
Qed.

Lemma scan_fields_header : forall fuel qso hdr record,
  (forall k, In k (dict_keys hdr) -> In k (dict_keys (snd (fst (scan_fields fuel qso hdr record))))) /\
  (forall k, In k (dict_keys (snd (fst (scan_fields fuel qso hdr record)))) ->
             In k (dict_keys hdr) \/ header_tag k).
Proof.
  induction fuel as [|fuel IH]; intros qso hdr record; cbn [scan_fields]; [split; auto|].
  destruct (search_specifier record) as [[i m]|]; [|split; auto].
  unfold scan_step.
  destruct (IH (dict_set qso (upper (sm_tag m)) (substring 0 (clamped_len m) (sm_value m)))
               (mirror_header (upper (sm_tag m)) (substring 0 (clamped_len m) (sm_value m)) hdr)
               (drop (i + sm_off4 m + clamped_len m) record)) as [H1 H2].
  destruct (mirror_header_grows (upper (sm_tag m)) (substring 0 (clamped_len m) (sm_value m)) hdr)
    as [M1 M2].
  split; auto. intros k Hk. destruct (H2 k Hk) as [Hm|Ht]; auto.
Qed.

Lemma hg_parse : forall a r n, hdr_grows a (fst (parse a r n)).
Proof.
  intros a r n. unfold parse, scan.
  set (a1 := if n then _ else _).
  assert (Ha1 : HEADER a1 = HEADER a) by (unfold a1; destruct n; reflexivity).
  destruct (scan_fields_header (S (String.length r)) (QSO a1) (HEADER a1) r) as [H1 H2].
  destruct (scan_fields _ (QSO a1) (HEADER a1) r) as [[q h] rest].
  cbn [fst snd] in H1, H2. rewrite Ha1 in H1, H2.
  destruct (search_eoh rest); split; cbn [fst HEADER clear]; auto.
Qed.

Ltac hg_solve :=
  repeat (cbv beta iota zeta;
    match goal with
    | |- context [parse ?x ?r ?n] =>
        let E := fresh "E" in
        pose proof (hg_parse x r n); destruct (parse x r n) as [? [|]] eqn:E; cbn [fst] in *
    | |- context [search_eoh ?s] => destruct (search_eoh s)
    | |- context [search_eor ?s] => destruct (search_eor s)
    end).

Lemma next_record_loop_header : forall file a eor,
  match next_record_loop a eor file with
  | inl (a', _) => hdr_grows a a'
  | inr (a', _) => hdr_grows a a'
  end.
Proof.
  induction file as [|l file IH]; intros a eor; cbn [next_record_loop]; [apply hg_refl|].
  hg_solve;
    repeat match goal with
    | |- context [next_record_loop ?x ?e file] =>
        let H := fresh in pose proof (IH x e) as H;
        destruct (next_record_loop x e file) as [[? ?]|[? ?]]
    end;
    eauto 6 using hg_trans, hg_with_line, hg_refl.
Qed.

(** X14: [next_record] never removes a header field: every [HEADER] key is
    still there afterwards, and the only keys it adds are the tags
    [parse] copies into the header ([ADIF_VER], [ADIF_VERS],
    [CREATED_TIMESTAMP], [PROGRAMID], [PROGRAMVERSION], [USERDEF...]). *)
Theorem next_record_header_grows : forall a f,
  (forall k, In k (dict_keys (HEADER a)) ->
             In k (dict_keys (HEADER (fst (fst (next_record a f)))))) /\
  (forall k, In k (dict_keys (HEADER (fst (fst (next_record a f))))) ->
             In k (dict_keys (HEADER a)) \/ header_tag k).
Proof.
  intros a f. change (hdr_grows a (fst (fst (next_record a f)))).
  unfold next_record. hg_solve;
    repeat match goal with
    | |- context [next_record_loop ?x ?e f] =>
        let H := fresh in pose proof (next_record_loop_header f x e) as H;
        destruct (next_record_loop x e f) as [[? ?]|[? ?]]
    end;
    hg_solve; cbn [fst] in *; eauto 6 using hg_trans, hg_with_line, hg_refl.
Qed.

(** X15: [parse] and the header end: when it sets [_EOH] it has also cleared
    the record and the pending line; it sets [_EOH] only for text with
    an [<EOH>] (matched case-insensitively) in it. *)
Theorem parse_eoh : forall a r n,
  (eoh (fst (parse a r n)) = true ->
     QSO (fst (parse a r n)) = [] /\ line (fst (parse a r n)) = EmptyString) /\
  (search_eoh r = None -> eoh (fst (parse a r n)) = false).
Proof.
  intros a r n. unfold parse, scan.
  set (a1 := if n then _ else _).
  assert (Ha1 : EOH_flag a1 = false) by (unfold a1; destruct n; reflexivity).
  destruct (scan_fields_suffix (S (String.length r)) (QSO a1) (HEADER a1) r) as [pre Hpre].
  destruct (scan_fields _ (QSO a1) (HEADER a1) r) as [[q h] rest]. cbn [snd] in Hpre.
  destruct (search_eoh rest) as [i|] eqn:Ee; cbn [fst eoh EOH_flag QSO line clear].
  - split; [auto|]. intros Hr. exfalso. unfold search_eoh in *. rewrite Hpre in Hr.
    apply search_literal_app_none in Hr. congruence.
  - rewrite Ha1. split; [discriminate|reflexivity].
Qed.

(** X7: A closed iterator ([fileobj] is [None], as after [close()]) stops
    at once on every [__next__], without calling [next_record]. *)
Theorem iter_next_closed : forall reader it,
  iter_next reader (close it) = (close it, StopIteration).
Proof.
  intros reader [a [f|]]; reflexivity.
Qed.

Lemma scan_no_specifier : forall qso hdr r,
  (forall i, search_specifier_from i r = None) -> scan qso hdr r = (qso, hdr, r).
Proof. intros qso hdr r H. unfold scan. cbn [scan_fields]. unfold search_specifier. rewrite H. reflexivity. Qed.

(** X6: A record with no fields ends the iteration: when the next line of
    the file has an [<EOR>] but no field before it (and no [<EOH>]),
    [next_record] returns [True] with an empty record, and [__next__]
    closes the iterator and stops, leaving the rest of the file unread. *)
Theorem iter_empty_record_stops : forall a l rest,
  line a = EmptyString ->
  (forall i, search_specifier_from i (flatten_line l) = None) ->
  search_eor (flatten_line l) <> None -> search_eoh (flatten_line l) = None ->
  (exists a1, next_record a (l :: rest) = (a1, true, rest) /\ QSO a1 = []) /\
  exists a',
    iter_next next_record_outcome (mk_iter a (Some (l :: rest))) = (mk_iter a' None, StopIteration).
Proof.
  intros a l rest Hl Hs Heor Heoh.
  assert (Hp : parse a (flatten_line l) true =
               ({| QSO := []; HEADER := HEADER a; EOH_flag := false; line := EmptyString |}, true)).
  { unfold parse. cbn [clear QSO HEADER EOH_flag line]. rewrite scan_no_specifier by exact Hs.
    rewrite Heoh. destruct (search_eor (flatten_line l)); [reflexivity|contradiction]. }
  destruct (next_record_single_line a l rest Hl Heoh) as [Hn _]; [rewrite Hp; reflexivity|].
  rewrite Hp in Hn. cbn [fst] in Hn.
  split; [eexists; split; [exact Hn|reflexivity]|].
  eexists. unfold iter_next, next_qso. cbn [fileobj adifobj].
  unfold next_record_outcome. rewrite Hn. reflexivity.
Qed.


Lemma sbe_refl : forall x, same_but_eoh x x.
Proof. intros x. repeat split. Qed.

Lemma sbe_parse : forall x y r n, same_but_eoh x y -> parse x r n = parse y r n.
Proof.
  intros [q h e l] [q' h' e' l'] r n (Hq & Hh & Hl). cbn [QSO HEADER line] in *. subst.
  reflexivity.
Qed.

Lemma sbe_with_line : forall x y l, same_but_eoh x y -> same_but_eoh (with_line x l) (with_line y l).
Proof. intros x y l (Hq & Hh & _). repeat split; assumption. Qed.


Lemma sbe_loop : forall file x y eor,
  same_but_eoh x y -> sbe_result (next_record_loop x eor file) (next_record_loop y eor file).
Proof.
  induction file as [|l file IH]; intros x y eor Hxy; cbn [next_record_loop].
  - split; auto.
  - set (x1 := with_line x (line x ++ flatten_line l)).
    set (y1 := with_line y (line y ++ flatten_line l)).
    assert (R1 : same_but_eoh x1 y1).
    { destruct Hxy as (Hq & Hh & Hl). repeat split; auto. unfold x1, y1. cbn [line with_line].
      rewrite Hl. reflexivity. }
    assert (Hl1 : line x1 = line y1) by apply R1.
    cbv zeta. rewrite Hl1, (sbe_parse x1 y1 _ _ R1).
    destruct (search_eoh (line y1)) as [i|]; cbv beta iota.
    + destruct (search_eor _) as [j|]; [|apply IH, sbe_refl].
      destruct (parse _ _ false) as [P [|]]; [split; [apply sbe_refl|reflexivity]|].
      apply IH, sbe_refl.
    + rewrite Hl1, (sbe_parse x1 y1 _ _ R1).
      destruct (search_eor (line y1)) as [j|]; [|apply IH; exact R1].
      destruct (parse y1 (line y1) eor) as [P [|]]; [split; [apply sbe_refl|reflexivity]|].
      apply IH, sbe_refl.
Qed.

Lemma sbe_next_record : forall x y f,
  same_but_eoh x y ->
  let '(x', s, r) := next_record x f in
  let '(y', s', r') := next_record y f in
  same_but_eoh x' y' /\ s = s' /\ r = r'.
Proof.
  intros x y f Hxy. unfold next_record.
  assert (Hl : line x = line y) by apply Hxy.
  rewrite Hl, (sbe_parse x y _ _ Hxy).
  destruct (search_eor (line y)) as [i|].
  - destruct (parse y (line y) true) as [P [|]]; [repeat split; reflexivity|].
    pose proof (sbe_loop f P P false (sbe_refl P)) as H.
    destruct (next_record_loop P false f) as [[u r]|[u e]]; [repeat split; reflexivity|].
    destruct (search_eor (line u)); [destruct (parse u (line u) e) as [Q [|]]|];
      repeat split; reflexivity.
  - pose proof (sbe_loop f x y true Hxy) as H.
    destruct (next_record_loop x true f) as [[u r]|[u e]];
      destruct (next_record_loop y true f) as [[v r']|[v e']]; cbn in H; try contradiction.
    + destruct H as [Huv ->]. repeat split; apply Huv.
    + destruct H as [Huv ->].
      assert (Hluv : line u = line v) by apply Huv.
      rewrite Hluv, (sbe_parse u v _ _ Huv).
      destruct (search_eor (line v)); [destruct (parse v (line v) e') as [Q [|]]|];
        repeat split; try reflexivity; apply Huv.
Qed.

(** X16: [copy_from(other)] then [next_record]: the copy reads a file as the
    other object would, the same status, lines left, record, header
    and pending text (only the [_EOH] flag, which [copy_from] does not
    copy, may differ when no [parse] runs). *)
Theorem next_record_copy_from : forall a b f,
  let '(x, s, r) := next_record (copy_from a b) f in
  let '(y, s', r') := next_record b f in
  s = s' /\ r = r' /\ QSO x = QSO y /\ HEADER x = HEADER y /\ line x = line y.
Proof.
  intros a b f.
  pose proof (sbe_next_record (copy_from a b) b f (conj eq_refl (conj eq_refl eq_refl))) as H.
  destruct (next_record (copy_from a b) f) as [[x s] r].
  destruct (next_record b f) as [[y s'] r'].
  destruct H as ((Hq & Hh & Hl) & Hs & Hr). repeat split; assumption.
Qed.

Lemma next_record_get_adif_roundtrip_witness :
  let b := adif_init (Some [("CALL", "W1AW"); ("BAND", "20M")]) in
  exists a',
    next_record (adif_init None)
      [get_adif b ++ String (ascii_of_nat 10) EmptyString; "<CALL:4>K1AB <EOR>"]
      = (a', true, ["<CALL:4>K1AB <EOR>"]) /\
    QSO a' = [("BAND", "20M"); ("CALL", "W1AW")].
Proof.
  intros b.
  assert (Hnd : NoDup (dict_keys (QSO b))).
  { repeat constructor; simpl; intuition discriminate. }
  assert (Hb : forall kv, In kv (QSO b) -> field_ok kv /\ all_chars no_crlf (snd kv) = true).
  { intros kv Hkv. simpl in Hkv.
    repeat (destruct Hkv as [<-|Hkv];
            [split; [repeat split; try discriminate; reflexivity|reflexivity]|]).
    contradiction. }
  destruct (next_record_get_adif_roundtrip (adif_init None) b ["<CALL:4>K1AB <EOR>"] eq_refl Hnd Hb)
    as [a' [H1 [H2 _]]].
  exists a'. split; [exact H1|]. rewrite H2. reflexivity.
Defined.

Lemma iter_get_adif_file_witness :
  let bs := [adif_init (Some [("CALL", "W1AW"); ("BAND", "20M")]);
             adif_init (Some [("CALL", "K1AB")])] in
  exists a',
    for_qsos next_record_outcome 3
      (mk_iter (adif_init None)
         (Some (map (fun b => get_adif b ++ String (ascii_of_nat 10) EmptyString) bs)))
    = ([[("BAND", "20M"); ("CALL", "W1AW")]; [("CALL", "K1AB")]], mk_iter a' None).
Proof.
  intros bs.
  assert (Hbs : forall b, In b bs ->
     QSO b <> [] /\ NoDup (dict_keys (QSO b)) /\
     (forall kv, In kv (QSO b) -> field_ok kv /\ all_chars no_crlf (snd kv) = true)).
  { intros b Hb. simpl in Hb.
    repeat (destruct Hb as [<-|Hb];
      [split; [discriminate|split; [repeat constructor; simpl; intuition discriminate|]];
       intros kv Hkv; simpl in Hkv;
       repeat (destruct Hkv as [<-|Hkv];
               [split; [repeat split; try discriminate; reflexivity|reflexivity]|]);
       contradiction|]).
    contradiction. }
  destruct (iter_get_adif_file bs (adif_init None) 3 eq_refl ltac:(simpl; lia) Hbs) as [a' H].
  exists a'. rewrite H. reflexivity.
Defined.

Lemma del_field_removes_witness :
  let a := adif_init (Some [("CALL", "W1AW"); ("BAND", "20M")]) in
  NoDup (dict_keys (QSO a)) /\
  get_field (del_field a "band ") "band " = EmptyString /\
  has_field (del_field a "band ") "band " = false /\
  get_field (del_field a "band ") "call" = "W1AW".
Proof.
  intros a.
  assert (Hnd : NoDup (dict_keys (QSO a))).
  { repeat constructor; simpl; intuition discriminate. }
  destruct (del_field_removes a "band " Hnd) as [H1 [H2 [H3 _]]].
  split; [exact Hnd|]. split; [exact H1|]. split; [exact H2|].
  rewrite H3 by discriminate. reflexivity.
Defined.

Lemma match_self_witness :
  let r := [("CALL", "W1AW"); ("BAND", "20M"); ("MODE", "CW");
            ("QSO_DATE", "20230101"); ("TIME_ON", "1200")] in
  minimumQso r = true /\ rec_field r "MODE" <> EmptyString /\
  record_datetime (rec_field r "QSO_DATE") (rec_field r "TIME_ON") <> None /\
  match_ 900 r r = Some true.
Proof.
  intros r.
  assert (H1 : minimumQso r = true) by reflexivity.
  assert (H2 : rec_field r "MODE" <> EmptyString) by discriminate.
  assert (H3 : record_datetime (rec_field r "QSO_DATE") (rec_field r "TIME_ON") <> None).
  { intros H. vm_compute in H. discriminate H. }
  split; [exact H1|]. split; [exact H2|]. split; [exact H3|].
  apply (match_self 900 r H1 H2 H3). lia.
Defined.

Lemma qsl_rcvd_reads_qsl_fields_witness :
  let q1 := [("CALL", "W1AW"); ("LOTW_QSL_RCVD", "Y"); ("BAND", "20M")] in
  let q2 := [("LOTW_QSL_RCVD", "Y")] in
  (forall k, In k qsl_keys -> dict_get q1 k = dict_get q2 k) /\
  qsl_rcvd q1 = qsl_rcvd q2.
Proof.
  intros q1 q2.
  assert (H : forall k, In k qsl_keys -> dict_get q1 k = dict_get q2 k).
  { intros k Hk. cbn [qsl_keys In] in Hk.
    repeat (destruct Hk as [<-|Hk]; [reflexivity|]). contradiction. }
  split; [exact H|]. exact (qsl_rcvd_reads_qsl_fields q1 q2 H).
Defined.

Lemma iter_empty_record_stops_witness :
  (exists a1, next_record (adif_init None) ["<EOR>"; "<CALL:4>W1AW <EOR>"]
              = (a1, true, ["<CALL:4>W1AW <EOR>"]) /\ QSO a1 = []) /\
  exists a',
    iter_next next_record_outcome
      (mk_iter (adif_init None) (Some ["<EOR>"; "<CALL:4>W1AW <EOR>"]))
    = (mk_iter a' None, StopIteration).
Proof.
  apply (iter_empty_record_stops (adif_init None) "<EOR>" ["<CALL:4>W1AW <EOR>"]).
  - reflexivity.
  - intros i. reflexivity.
  - discriminate.
  - reflexivity.
Defined.

Lemma freqs_step : forall j, j < 59 -> (nth j bandmap_freqs 0%Q < nth (S j) bandmap_freqs 0%Q)%Q.
Proof.
  intros j Hj.
  assert (Hc : forallb (fun j => Qltb (nth j bandmap_freqs 0%Q) (nth (S j) bandmap_freqs 0%Q))
                 (seq 0 59) = true) by (vm_compute; reflexivity).
  rewrite forallb_forall in Hc. specialize (Hc j). unfold Qltb in Hc.
  destruct (Qle_bool (nth (S j) bandmap_freqs 0%Q) (nth j bandmap_freqs 0%Q)) eqn:E.
  - discriminate Hc. apply in_seq. lia.
  - apply Qnot_le_lt. intros H. apply Qle_bool_iff in H. congruence.
Qed.

Lemma freqs_lt : forall j k, j < k -> k < 60 ->
  (nth j bandmap_freqs 0%Q < nth k bandmap_freqs 0%Q)%Q.
Proof.
  intros j k Hjk Hk. induction k as [|k IH]; [lia|].
  destruct (Nat.eq_dec j k) as [->|Hne]; [apply freqs_step; lia|].
  apply Qlt_trans with (nth k bandmap_freqs 0%Q); [apply IH; lia|apply freqs_step; lia].
Qed.

Lemma freqs_le : forall j k, j <= k -> k < 60 ->
  (nth j bandmap_freqs 0%Q <= nth k bandmap_freqs 0%Q)%Q.
Proof.
  intros j k Hjk Hk. destruct (Nat.eq_dec j k) as [->|Hne]; [apply Qle_refl|].
  apply Qlt_le_weak, freqs_lt; lia.
Qed.

Lemma py_range_freq2band : py_range 0 (List.length bandmap_freqs - 1) 2 = map (fun j => 2 * j) (seq 0 30).
Proof. reflexivity. Qed.

Lemma band_loop_check : forall f i,
  Qle_bool (nth (2 * i) bandmap_freqs 0%Q) f && Qle_bool f (nth (2 * i + 1) bandmap_freqs 0%Q) = true
  <-> in_band i f.
Proof.
  intros f i. unfold in_band. rewrite andb_true_iff, !Qle_bool_iff. reflexivity.
Qed.

Lemma band_loop_hit : forall f n s i,
  s <= i < s + n -> in_band i f -> (forall j, s <= j < i -> ~ in_band j f) ->
  band_loop f (map (fun j => 2 * j) (seq s n)) = nth (2 * i) bandmap_bands "".
Proof.
  intros f n. induction n as [|n IH]; intros s i Hi Hin Hbefore; [lia|].
  cbn [seq map band_loop].
  destruct (Qle_bool _ f && Qle_bool f _) eqn:E.
  - apply band_loop_check in E. destruct (Nat.eq_dec s i) as [->|Hne]; [reflexivity|].
    exfalso. apply (Hbefore s); auto. lia.
  - destruct (Nat.eq_dec s i) as [->|Hne].
    + apply band_loop_check in Hin. congruence.
    + apply IH; auto; [lia|]. intros j Hj. apply Hbefore. lia.
Qed.

Lemma band_loop_miss : forall f n s,
  (forall j, s <= j < s + n -> ~ in_band j f) ->
  band_loop f (map (fun j => 2 * j) (seq s n)) = "NONE".
Proof.
  intros f n. induction n as [|n IH]; intros s H; [reflexivity|].
  cbn [seq map band_loop].
  destruct (Qle_bool _ f && Qle_bool f _) eqn:E.
  - apply band_loop_check in E. exfalso. apply (H s); auto. lia.
  - apply IH. intros j Hj. apply H. lia.
Qed.

(** X17: [freq2band] on a frequency inside one of the 30 bands of the table
    returns that band's name. *)
Theorem freq2band_in_band : forall i f,
  i < 30 -> in_band i f -> freq2band f = nth (2 * i) bandmap_bands "".
Proof.
  intros i f Hi Hf. pose proof Hf as [Hlo Hhi]. unfold freq2band. cbv zeta.
  rewrite py_range_freq2band.
  replace (List.length bandmap_freqs - 1) with 59 by reflexivity.
  assert (E1 : Qltb f (nth 0 bandmap_freqs 0%Q) = false).
  { unfold Qltb. rewrite negb_false_iff, Qle_bool_iff.
    apply Qle_trans with (nth (2 * i) bandmap_freqs 0%Q); auto. apply freqs_le; lia. }
  assert (E2 : Qltb (nth 59 bandmap_freqs 0%Q) f = false).
  { unfold Qltb. rewrite negb_false_iff, Qle_bool_iff.
    apply Qle_trans with (nth (2 * i + 1) bandmap_freqs 0%Q); auto. apply freqs_le; lia. }
  rewrite E1, E2. apply band_loop_hit; auto; [lia|].
  intros j Hj [_ Hj2].
  assert (Hlt : (nth (2 * j + 1) bandmap_freqs 0%Q < nth (2 * i) bandmap_freqs 0%Q)%Q)
    by (apply freqs_lt; lia).
  apply (Qlt_irrefl f). apply Qle_lt_trans with (nth (2 * j + 1) bandmap_freqs 0%Q); auto.
  apply Qlt_le_trans with (nth (2 * i) bandmap_freqs 0%Q); auto.
Qed.

(** X18: [freq2band] returns ['NONE'] for a frequency outside every band of
    the table: below the first, above the last, or in a gap. *)
Theorem freq2band_outside_bands : forall f,
  (forall i, i < 30 -> ~ in_band i f) -> freq2band f = "NONE".
Proof.
  intros f H. unfold freq2band. cbv zeta. rewrite py_range_freq2band.
  destruct (Qltb _ _); [reflexivity|]. destruct (Qltb _ _); [reflexivity|].
  apply band_loop_miss. intros j Hj. apply H. lia.
Qed.

Lemma freq2band_in_band_witness :
  in_band 8 (14074 # 1000) /\ freq2band (14074 # 1000) = "20m".
Proof.
  assert (H : in_band 8 (14074 # 1000)) by (apply band_loop_check; vm_compute; reflexivity).
  split; [exact H|]. exact (freq2band_in_band 8 (14074 # 1000) ltac:(lia) H).
Defined.

Lemma freq2band_outside_bands_witness :
  (forall i, i < 30 -> ~ in_band i 3) /\ freq2band 3 = "NONE".
Proof.
  assert (H : forall i, i < 30 -> ~ in_band i 3).
  { intros i Hi Hin. apply band_loop_check in Hin. revert Hin.
    assert (Hc : forallb (fun i => negb (Qle_bool (nth (2 * i) bandmap_freqs 0%Q) 3
                   && Qle_bool 3 (nth (2 * i + 1) bandmap_freqs 0%Q))) (seq 0 30) = true)
      by (vm_compute; reflexivity).
    rewrite forallb_forall in Hc. specialize (Hc i). rewrite negb_true_iff in Hc.
    rewrite Hc by (apply in_seq; lia). discriminate. }
  split; [exact H|]. exact (freq2band_outside_bands 3 H).
Defined.
